(** * Intrusive doubly-linked list: a shallow embedding of [intrusive_list.h]

    The C++ header defines a link node [list_element<Tag>] (two raw pointers
    [next] and [prev]), a container [list<T, Tag>] that owns one sentinel link
    node, and a bidirectional iterator that is a cursor over link nodes.

    The embedding keeps the pointer graph explicit: a heap maps addresses to
    link nodes, every member function becomes a computation in a small
    state-and-failure monad over that heap, and each C++ statement becomes one
    read or write, in the order the source performs them.  Dereferencing an
    address that holds no node is the failure of the monad. *)

From stdpp Require Import gmap list.

#[local] Set Warnings "-clear-no-such-hyp".

(** ** Heap of link nodes *)

(** Addresses.  An element of type [T] is identified with the address of the
    [list_element<Tag>] base it converts to (the [static_cast]s of the source
    are the identity on addresses), and a [list] with the address of its
    sentinel member [pointer]. *)
Abbreviation loc := nat (only parsing).

(** [struct list_element { list_element *next; list_element *prev; }] *)
Record list_element : Type := Node { next : loc; prev : loc }.

#[global] Instance list_element_eq_dec : EqDecision list_element.
Proof. solve_decision. Defined.

Abbreviation heap := (gmap nat list_element) (only parsing).

Module Mem.

(** State-and-failure monad over the heap. *)
Definition M (A : Type) : Type := heap → option (A * heap).

#[global] Instance M_ret : MRet M := λ A a h, Some (a, h).

#[global] Instance M_bind : MBind M :=
  λ A B k c h, match c h with
               | Some (a, h') => k a h'
               | None => None
               end.

(** [p->next] and [p->prev] as rvalues. *)
Definition get_next (p : loc) : M loc :=
  λ h, match h !! p with
       | Some n => Some (next n, h)
       | None => None
       end.

Definition get_prev (p : loc) : M loc :=
  λ h, match h !! p with
       | Some n => Some (prev n, h)
       | None => None
       end.

(** [p->next = v] and [p->prev = v]. *)
Definition set_next (p v : loc) : M unit :=
  λ h, match h !! p with
       | Some n => Some (tt, <[p := Node v (prev n)]> h)
       | None => None
       end.

Definition set_prev (p v : loc) : M unit :=
  λ h, match h !! p with
       | Some n => Some (tt, <[p := Node (next n) v]> h)
       | None => None
       end.

(** Storage for a node object coming into existence at [p]; the fields are
    given by the constructor body that runs on it. *)
Definition construct_at (p : loc) (n : list_element) : M unit :=
  λ h, Some (tt, <[p := n]> h).

(** The heap a computation leaves behind, when it returns. *)
Definition exec {A} (c : M A) (h : heap) : option heap :=
  snd <$> c h.

(** The value a computation returns, when it returns. *)
Definition eval {A} (c : M A) (h : heap) : option A :=
  fst <$> c h.

End Mem.
Import Mem.

(** ** The link node: [list_element<Tag>] *)

(** [list_element() { prev = next = this; }] *)
Definition list_element_ctor (this : loc) : M unit :=
  construct_at this (Node this this).

(** [void link(list_element *prev, list_element *next)] *)
Definition link (this prev next : loc) : M unit :=
  set_next this next ;;
  set_prev this prev ;;
  set_prev next this ;;
  set_next prev this.

(** [void unlink()].  The second statement re-reads [this->prev] and
    [this->next] after the first one has written [this->next->prev]. *)
Definition unlink (this : loc) : M unit :=
  n ← get_next this;
  p ← get_prev this;
  set_prev n p ;;
  p' ← get_prev this;
  n' ← get_next this;
  set_next p' n' ;;
  set_next this this ;;
  set_prev this this.

(** ** The iterator: [list::list_iterator<is_const>]

    An iterator is its [iter] field.  Both constness variants have the same
    run-time content. *)
Module Iter.

(** [operator*], [operator->]: the node viewed as the element. *)
Definition deref (it : loc) : loc := it.

(** [operator++()]: [iter = iter->next]. *)
Definition incr (it : loc) : M loc := get_next it.

(** [operator--()]: [iter = iter->prev]. *)
Definition decr (it : loc) : M loc := get_prev it.

(** [operator==]: [lhs.iter == rhs.iter]. *)
Definition eqb (lhs rhs : loc) : bool := bool_decide (lhs = rhs).

End Iter.

(** ** The container: [list<T, Tag>]

    [this] is the address of the sentinel [pointer]. *)

(** [void clear() { pointer.prev = pointer.next = &pointer; }] *)
Definition clear (this : loc) : M unit :=
  set_next this this ;;
  set_prev this this.

(** [list() { pointer.prev = pointer.next = &pointer; }], after the member
    [pointer] has been default-constructed. *)
Definition list_ctor (this : loc) : M unit :=
  list_element_ctor this ;;
  set_next this this ;;
  set_prev this this.

(** [bool empty() const { return pointer.prev == &pointer; }] *)
Definition empty (this : loc) : M bool :=
  p ← get_prev this;
  mret (bool_decide (p = this)).

(** [list &operator=(list &&other)] *)
Definition move_assign (this other : loc) : M unit :=
  clear this ;;
  e ← empty other;
  (if negb e
   then op ← get_prev other;
        on ← get_next other;
        link this op on
   else mret tt) ;;
  clear other.

(** [list(list &&other) { operator=(std::move(other)); }] *)
Definition move_ctor (this other : loc) : M unit :=
  list_element_ctor this ;;
  move_assign this other.

(** [void push_back(T &elem)] *)
Definition push_back (this elem : loc) : M unit :=
  p ← get_prev this;
  link elem p this.

(** [void pop_back() { pointer.prev->unlink(); }] *)
Definition pop_back (this : loc) : M unit :=
  p ← get_prev this;
  unlink p.

(** [T &back()]: the node [pointer.prev] viewed as a [T]. *)
Definition back (this : loc) : M loc := get_prev this.

(** [void push_front(T &elem)] *)
Definition push_front (this elem : loc) : M unit :=
  n ← get_next this;
  link elem this n.

(** [void pop_front() { pointer.next->unlink(); }] *)
Definition pop_front (this : loc) : M unit :=
  n ← get_next this;
  unlink n.

(** [T &front()]: the node [pointer.next] viewed as a [T]. *)
Definition front (this : loc) : M loc := get_next this.

(** [iterator begin() { return iterator(pointer.next); }] *)
Definition begin_ (this : loc) : M loc := get_next this.

(** [iterator end() { return iterator(&pointer); }] *)
Definition end_ (this : loc) : M loc := mret this.

(** [iterator insert(const_iterator pos, T &elem)].  The body does not use
    [this]. *)
Definition insert (this pos elem : loc) : M loc :=
  p ← get_prev pos;
  link elem p pos ;;
  mret elem.

(** [iterator erase(const_iterator pos)]: [pos] is advanced first, and the
    node unlinked is the predecessor of the advanced position. *)
Definition erase (this pos : loc) : M loc :=
  pos' ← Iter.incr pos;
  x ← get_prev pos';
  unlink x ;;
  mret pos'.

(** [void splice(const_iterator pos, list &, const_iterator first,
    const_iterator last)].  The second parameter is unnamed in the source. *)
Definition splice (this pos other first last : loc) : M unit :=
  if Iter.eqb first last then mret tt
  else
    fp ← get_prev first;
    set_next fp last ;;
    swap_last ← get_prev last;
    fp' ← get_prev first;
    set_prev last fp' ;;
    pp ← get_prev pos;
    set_next pp first ;;
    pp' ← get_prev pos;
    set_prev first pp' ;;
    set_next swap_last pos ;;
    set_prev pos swap_last.

(** ** Iteration from [begin()] to [end()] with [operator++] *)

Fixpoint iterate (fuel : nat) (this it : loc) : M (option (list loc)) :=
  match fuel with
  | O => mret None
  | S fuel' =>
      e ← end_ this;
      if Iter.eqb it e then mret (Some [])
      else
        it' ← Iter.incr it;
        r ← iterate fuel' this it';
        mret (cons (Iter.deref it) <$> r)
  end.

(** The elements of a list in iteration order; [None] inside when the fuel
    does not reach [end()]. *)
Definition to_list (fuel : nat) (this : loc) : M (option (list loc)) :=
  b ← begin_ this;
  iterate fuel this b.

(** [k] applications of [operator++], resp. [operator--]. *)
Fixpoint advance (k : nat) (it : loc) : M loc :=
  match k with
  | O => mret it
  | S k' => it' ← Iter.incr it; advance k' it'
  end.

Fixpoint retreat (k : nat) (it : loc) : M loc :=
  match k with
  | O => mret it
  | S k' => it' ← Iter.decr it; retreat k' it'
  end.

(** [n->next->prev] and [n->prev->next]. *)
Definition next_prev (n : loc) : M loc := nx ← get_next n; get_prev nx.
Definition prev_next (n : loc) : M loc := pv ← get_prev n; get_next pv.

(** ** Reading the heap, and the heaps that writes produce *)

Definition rd_next (h : heap) (a : loc) : option loc := next <$> h !! a.
Definition rd_prev (h : heap) (a : loc) : option loc := prev <$> h !! a.

(** [a] holds a node. *)
Definition alloc (h : heap) (a : loc) : Prop := is_Some (h !! a).

#[global] Instance alloc_dec h a : Decision (alloc h a).
Proof. unfold alloc. apply _. Defined.

Definition upd_next (a v : loc) (h : heap) : heap :=
  alter (λ n, Node v (prev n)) a h.
Definition upd_prev (a v : loc) (h : heap) : heap :=
  alter (λ n, Node (next n) v) a h.

(** ** Rings

    [adj h a b]: [b] is the successor of [a] and [a] the predecessor of [b].
    [path h a l]: starting at [a], the nodes of [l] follow one another.
    [ring h s L]: the list with sentinel [s] holds the elements [L], in this
    order, and going on from the last one leads back to [s]. *)

Definition adj (h : heap) (a b : loc) : Prop :=
  rd_next h a = Some b ∧ rd_prev h b = Some a.

Fixpoint path (h : heap) (a : loc) (l : list loc) : Prop :=
  match l with
  | [] => True
  | b :: l' => adj h a b ∧ path h b l'
  end.

Definition ring (h : heap) (s : loc) (L : list loc) : Prop :=
  NoDup (s :: L) ∧ path h s (L ++ [s]).

(** The unlinked state of a node: [prev == this && next == this]. *)
Definition unlinked (h : heap) (a : loc) : Prop :=
  h !! a = Some (Node a a).

#[global] Instance adj_dec h a b : Decision (adj h a b).
Proof. unfold adj. apply _. Defined.

#[global] Instance path_dec h a l : Decision (path h a l).
Proof. revert a. induction l as [|b l IH]; intros a; simpl; apply _. Defined.

#[global] Instance ring_dec h s L : Decision (ring h s L).
Proof. unfold ring. apply _. Defined.

#[global] Instance unlinked_dec h a : Decision (unlinked h a).
Proof. unfold unlinked. apply _. Defined.

(** The last node of the path [a :: l], and the nodes that have a successor
    on it. *)
Fixpoint final (a : loc) (l : list loc) : loc :=
  match l with
  | [] => a
  | b :: l' => final b l'
  end.

Fixpoint srcs (a : loc) (l : list loc) : list loc :=
  match l with
  | [] => []
  | b :: l' => a :: srcs b l'
  end.

(** ** Several lists, and sequences of operations on them *)

(** A call of a member function, or the construction of an element. *)
Inductive op : Type :=
| NewElement (x : loc)
| Construct (s : loc)
| MoveConstruct (s o : loc)
| MoveAssign (s o : loc)
| Clear (s : loc)
| PushBack (s x : loc)
| PopBack (s : loc)
| PushFront (s x : loc)
| PopFront (s : loc)
| Insert (s pos x : loc)
| Erase (s pos : loc)
| Splice (s pos o first last : loc).

(** What the call runs. *)
Definition run_op (o : op) : M unit :=
  match o with
  | NewElement x => list_element_ctor x
  | Construct s => list_ctor s
  | MoveConstruct s o => move_ctor s o
  | MoveAssign s o => move_assign s o
  | Clear s => clear s
  | PushBack s x => push_back s x
  | PopBack s => pop_back s
  | PushFront s x => push_front s x
  | PopFront s => pop_front s
  | Insert s pos x => insert s pos x ;; mret tt
  | Erase s pos => erase s pos ;; mret tt
  | Splice s pos o first last => splice s pos o first last
  end.

(** A sequence of calls, one after the other. *)
Fixpoint run_ops (os : list op) : M unit :=
  match os with
  | [] => mret tt
  | o :: os' => run_op o ;; run_ops os'
  end.

(** The caller's view: which lists are alive, with their contents, and which
    elements have been constructed. *)
Record world : Type := World {
  lists : gmap nat (list nat);
  elems : gset nat
}.

Definition world0 : world := World ∅ ∅.

Definition set_list (s : loc) (L : list loc) (w : world) : world :=
  World (<[s := L]> (lists w)) (elems w).

Definition add_elem (x : loc) (w : world) : world :=
  World (lists w) ({[x]} ∪ elems w).

(** An address nothing lives at; an element that is in no list. *)
Definition fresh (w : world) (a : loc) : Prop :=
  (a ∉ elems w) ∧ (lists w !! a = None).

Definition free (w : world) (x : loc) : Prop :=
  x ∈ elems w ∧ ∀ s L, lists w !! s = Some L → x ∉ L.

(** The valid calls, and what each does to the caller's view.  A call is
    valid when it keeps the caller's side of the contract: a list or an
    element is constructed where nothing lives; an element that is pushed or
    inserted is in no list; [pop_back], [pop_front] and [erase] have an
    element to remove; iterators are positions of the list they are used
    with, and the range of [splice] does not hold its destination.
    Positions are given the way iterators reach them: the position of a
    suffix [Y] of the list with sentinel [s] is [hd s Y], its first element
    or [end()]. *)
Inductive valid : world → op → world → Prop :=
| valid_new_element w x :
    fresh w x →
    valid w (NewElement x) (add_elem x w)
| valid_construct w s :
    fresh w s →
    valid w (Construct s) (set_list s [] w)
| valid_move_construct w s o L :
    fresh w s → lists w !! o = Some L →
    valid w (MoveConstruct s o) (set_list s L (set_list o [] w))
| valid_move_assign w s o Ls Lo :
    s ≠ o → lists w !! s = Some Ls → lists w !! o = Some Lo →
    valid w (MoveAssign s o) (set_list s Lo (set_list o [] w))
| valid_move_assign_self w s L :
    lists w !! s = Some L →
    valid w (MoveAssign s s) (set_list s [] w)
| valid_clear w s L :
    lists w !! s = Some L →
    valid w (Clear s) (set_list s [] w)
| valid_push_back w s L x :
    lists w !! s = Some L → free w x →
    valid w (PushBack s x) (set_list s (L ++ [x]) w)
| valid_pop_back w s L x :
    lists w !! s = Some (L ++ [x]) →
    valid w (PopBack s) (set_list s L w)
| valid_push_front w s L x :
    lists w !! s = Some L → free w x →
    valid w (PushFront s x) (set_list s (x :: L) w)
| valid_pop_front w s L x :
    lists w !! s = Some (x :: L) →
    valid w (PopFront s) (set_list s L w)
| valid_insert w s X Y x :
    lists w !! s = Some (X ++ Y) → free w x →
    valid w (Insert s (hd s Y) x) (set_list s (X ++ x :: Y) w)
| valid_erase w s X x Y :
    lists w !! s = Some (X ++ x :: Y) →
    valid w (Erase s x) (set_list s (X ++ Y) w)
| valid_splice w s o A R B C D :
    s ≠ o →
    lists w !! o = Some (A ++ R ++ B) → lists w !! s = Some (C ++ D) →
    valid w (Splice s (hd s D) o (hd (hd o B) R) (hd o B))
      (set_list s (C ++ R ++ D) (set_list o (A ++ B) w))
| valid_splice_after w s A R B1 B2 :
    lists w !! s = Some (A ++ R ++ B1 ++ B2) →
    valid w (Splice s (hd s B2) s (hd (hd s (B1 ++ B2)) R) (hd s (B1 ++ B2)))
      (set_list s (A ++ B1 ++ R ++ B2) w)
| valid_splice_before w s A1 a A2 R B :
    lists w !! s = Some (A1 ++ a :: A2 ++ R ++ B) →
    valid w (Splice s a s (hd (hd s B) R) (hd s B))
      (set_list s (A1 ++ R ++ a :: A2 ++ B) w).

(** Sequences of valid calls. *)
Inductive valid_seq : world → list op → world → Prop :=
| valid_nil w : valid_seq w [] w
| valid_cons w o w' os w'' :
    valid w o w' → valid_seq w' os w'' → valid_seq w (o :: os) w''.

(** The invariant that ties the heap to the caller's view: every live list
    is a ring over its elements; the elements of lists are constructed
    elements and no sentinel is one; constructed elements hold a node; no
    element is in two lists. *)
Definition Inv (h : heap) (w : world) : Prop :=
  (∀ s L, lists w !! s = Some L → ring h s L)
  ∧ (∀ s L x, lists w !! s = Some L → x ∈ L → x ∈ elems w)
  ∧ (∀ s, is_Some (lists w !! s) → s ∉ elems w)
  ∧ (∀ x, x ∈ elems w → alloc h x)
  ∧ (∀ s1 s2 L1 L2 x, s1 ≠ s2 →
       lists w !! s1 = Some L1 → lists w !! s2 = Some L2 →
       x ∈ L1 → x ∉ L2).

(** ** The statements and examples of the specification *)

(** C4, as the specification states it: [pop_back()] (resp. [pop_front()])
    on the list returns and leaves something that is not a well-formed empty
    ring. *)
Definition pop_back_corrupts (h : heap) (s : loc) : Prop :=
  ∃ h', pop_back s h = Some (tt, h') ∧ ¬ ring h' s [].
Definition pop_front_corrupts (h : heap) (s : loc) : Prop :=
  ∃ h', pop_front s h = Some (tt, h') ∧ ¬ ring h' s [].

(** The lists of the example of the specification: [A = [1,2,3,4]] with
    sentinel at address 10 and [B = [5,6]] with sentinel at address 20,
    built by the code itself; the element with value [n] lives at
    address [n]. *)
Definition example_AB : M unit :=
  list_element_ctor 1 ;; list_element_ctor 2 ;; list_element_ctor 3 ;;
  list_element_ctor 4 ;; list_element_ctor 5 ;; list_element_ctor 6 ;;
  list_ctor 10 ;; list_ctor 20 ;;
  push_back 10 1 ;; push_back 10 2 ;; push_back 10 3 ;; push_back 10 4 ;;
  push_back 20 5 ;; push_back 20 6.

(** [B.splice(B.begin()+1, A, A.begin()+1, A.begin()+3)] *)
Definition example_splice : M unit :=
  b ← begin_ 20; pos ← advance 1 b;
  a ← begin_ 10; first ← advance 1 a;
  a' ← begin_ 10; last ← advance 3 a';
  splice 20 pos 10 first last.

(** ** Concrete heaps and sessions *)

(** An empty list at address 7. *)
Definition heap_empty_list : gmap nat list_element :=
  {[ 7 := Node 7 7 ]}.

(** The list [[1; 2]] with sentinel at address 10, and an unlinked element
    at address 3. *)
Definition heap_two : gmap nat list_element :=
  list_to_map
    [ (10, Node 1 2); (1, Node 2 10); (2, Node 10 1); (3, Node 3 3) ].

(** Three unlinked elements at addresses 1, 2 and 3, and an empty list at
    address 30. *)
Definition heap_unlinked : gmap nat list_element :=
  list_to_map
    [ (1, Node 1 1); (2, Node 2 2); (3, Node 3 3); (30, Node 30 30) ].

(** The lists [A = [1; 2; 3; 4]] at 10 and [B = [5; 6]] at 20. *)
Definition heap_AB : gmap nat list_element :=
  list_to_map
    [ (10, Node 1 4); (1, Node 2 10); (2, Node 3 1); (3, Node 4 2);
      (4, Node 10 3); (20, Node 5 6); (5, Node 6 20); (6, Node 20 5) ].

(** A session with three lists and four elements that uses every operation,
    among them the re-use of an element left behind by a move assignment. *)
Definition example_session : list op :=
  [ NewElement 1; NewElement 2; NewElement 3; NewElement 4;
    Construct 10; Construct 20;
    PushBack 10 1; PushBack 10 2; PushFront 10 3;
    Insert 10 1 4;
    Splice 20 20 10 4 2;
    Erase 10 3;
    Splice 20 4 20 1 20;
    MoveConstruct 30 20;
    PopFront 30;
    MoveAssign 10 30;
    PushBack 30 2;
    Clear 10;
    PopBack 30;
    MoveAssign 20 20;
    PushBack 20 1; PushBack 20 3;
    Splice 20 20 20 1 3 ].

Definition example_world : world :=
  World (list_to_map [ (10, []); (20, [3; 1]); (30, []) ]) (list_to_set [1; 2; 3; 4]).

(** ** The rest of the iterator, and iteration backwards *)

(** [operator!=]: [!(lhs == rhs)]. *)
Definition neqb (lhs rhs : loc) : bool := negb (Iter.eqb lhs rhs).

(** [operator++(int)]: [auto tmp = *this; operator++(); return tmp;].  The
    result is the iterator returned, with the new value of the iterator it
    was called on. *)
Definition post_incr (it : loc) : M (loc * loc) :=
  let tmp := it in
  it' ← Iter.incr it;
  mret (tmp, it').

(** [operator--(int)] *)
Definition post_decr (it : loc) : M (loc * loc) :=
  let tmp := it in
  it' ← Iter.decr it;
  mret (tmp, it').

(** Iteration from [end()] down to [begin()] with [operator--]: the iterator
    is moved back, then dereferenced. *)
Fixpoint iterate_back (fuel : nat) (this it : loc) : M (option (list loc)) :=
  match fuel with
  | O => mret None
  | S fuel' =>
      b ← begin_ this;
      if Iter.eqb it b then mret (Some [])
      else
        it' ← Iter.decr it;
        r ← iterate_back fuel' this it';
        mret (cons (Iter.deref it') <$> r)
  end.

Definition to_list_rev (fuel : nat) (this : loc) : M (option (list loc)) :=
  e ← end_ this;
  iterate_back fuel this e.

(** * Lemmas *)

(** ** Reads through writes, and single statements *)

Section heap_facts.
Implicit Types (h : heap) (a b v : loc).

Lemma heap_ext h1 h2 :
  (∀ a, rd_next h1 a = rd_next h2 a) →
  (∀ a, rd_prev h1 a = rd_prev h2 a) →
  h1 = h2.
Proof.
  intros Hn Hp. apply map_eq. intros a.
  specialize (Hn a). specialize (Hp a). unfold rd_next, rd_prev in *.
  destruct (h1 !! a) as [[n1 p1]|], (h2 !! a) as [[n2 p2]|];
    simpl in *; congruence.
Qed.

Lemma alloc_rd_next h a : alloc h a ↔ is_Some (rd_next h a).
Proof. unfold alloc, rd_next. by rewrite fmap_is_Some. Qed.

Lemma alloc_rd_prev h a : alloc h a ↔ is_Some (rd_prev h a).
Proof. unfold alloc, rd_prev. by rewrite fmap_is_Some. Qed.

Lemma rd_next_alloc h a v : rd_next h a = Some v → alloc h a.
Proof. intros H. apply alloc_rd_next. by rewrite H. Qed.

Lemma rd_prev_alloc h a v : rd_prev h a = Some v → alloc h a.
Proof. intros H. apply alloc_rd_prev. by rewrite H. Qed.

Lemma alloc_upd_next h a v b : alloc (upd_next a v h) b ↔ alloc h b.
Proof.
  unfold alloc, upd_next. rewrite lookup_alter.
  case_decide; subst; by rewrite ?fmap_is_Some.
Qed.

Lemma alloc_upd_prev h a v b : alloc (upd_prev a v h) b ↔ alloc h b.
Proof.
  unfold alloc, upd_prev. rewrite lookup_alter.
  case_decide; subst; by rewrite ?fmap_is_Some.
Qed.

Lemma rd_next_upd_next_eq h a v : alloc h a → rd_next (upd_next a v h) a = Some v.
Proof.
  intros [n Hn]. unfold rd_next, upd_next.
  rewrite lookup_alter, decide_True, Hn by done. done.
Qed.

Lemma rd_next_upd_next_ne h a v b : a ≠ b → rd_next (upd_next a v h) b = rd_next h b.
Proof. intros. unfold rd_next, upd_next. by rewrite lookup_alter_ne. Qed.

Lemma rd_prev_upd_next h a v b : rd_prev (upd_next a v h) b = rd_prev h b.
Proof.
  unfold rd_prev, upd_next. rewrite lookup_alter.
  case_decide; subst; [|done]. by destruct (h !! b).
Qed.

Lemma rd_prev_upd_prev_eq h a v : alloc h a → rd_prev (upd_prev a v h) a = Some v.
Proof.
  intros [n Hn]. unfold rd_prev, upd_prev.
  rewrite lookup_alter, decide_True, Hn by done. done.
Qed.

Lemma rd_prev_upd_prev_ne h a v b : a ≠ b → rd_prev (upd_prev a v h) b = rd_prev h b.
Proof. intros. unfold rd_prev, upd_prev. by rewrite lookup_alter_ne. Qed.

Lemma rd_next_upd_prev h a v b : rd_next (upd_prev a v h) b = rd_next h b.
Proof.
  unfold rd_next, upd_prev. rewrite lookup_alter.
  case_decide; subst; [|done]. by destruct (h !! b).
Qed.

Lemma lookup_upd_next_ne h a v b : a ≠ b → upd_next a v h !! b = h !! b.
Proof. intros. unfold upd_next. by rewrite lookup_alter_ne. Qed.

Lemma lookup_upd_prev_ne h a v b : a ≠ b → upd_prev a v h !! b = h !! b.
Proof. intros. unfold upd_prev. by rewrite lookup_alter_ne. Qed.

(** Writing the value a field already holds changes nothing. *)
Lemma upd_next_id h a v : rd_next h a = Some v → upd_next a v h = h.
Proof.
  intros H. apply heap_ext; intros b.
  - destruct (decide (a = b)) as [->|].
    + rewrite rd_next_upd_next_eq; eauto using rd_next_alloc.
    + by rewrite rd_next_upd_next_ne.
  - apply rd_prev_upd_next.
Qed.

Lemma upd_prev_id h a v : rd_prev h a = Some v → upd_prev a v h = h.
Proof.
  intros H. apply heap_ext; intros b.
  - apply rd_next_upd_prev.
  - destruct (decide (a = b)) as [->|].
    + rewrite rd_prev_upd_prev_eq; eauto using rd_prev_alloc.
    + by rewrite rd_prev_upd_prev_ne.
Qed.

(** One statement of the source at a time. *)
Lemma run_ret {A} (x : A) h : mret (M := M) x h = Some (x, h).
Proof. done. Qed.

Lemma run_bind_ret {A B} (x : A) (k : A → M B) h : (mret x ≫= k) h = k x h.
Proof. done. Qed.

Lemma run_get_next h a v : rd_next h a = Some v → get_next a h = Some (v, h).
Proof.
  unfold rd_next, get_next. destruct (h !! a); simpl; congruence.
Qed.

Lemma run_get_prev h a v : rd_prev h a = Some v → get_prev a h = Some (v, h).
Proof.
  unfold rd_prev, get_prev. destruct (h !! a); simpl; congruence.
Qed.

Lemma run_set_next h a v : alloc h a → set_next a v h = Some (tt, upd_next a v h).
Proof.
  intros [n Hn]. unfold set_next, upd_next. rewrite Hn. do 2 f_equal.
  apply map_eq. intros b. rewrite lookup_alter, lookup_insert.
  case_decide; subst; by rewrite ?Hn.
Qed.

Lemma run_set_prev h a v : alloc h a → set_prev a v h = Some (tt, upd_prev a v h).
Proof.
  intros [n Hn]. unfold set_prev, upd_prev. rewrite Hn. do 2 f_equal.
  apply map_eq. intros b. rewrite lookup_alter, lookup_insert.
  case_decide; subst; by rewrite ?Hn.
Qed.

Lemma run_bind {A B} (c : M A) (k : A → M B) h x h' :
  c h = Some (x, h') → (c ≫= k) h = k x h'.
Proof. unfold mbind, M_bind. by intros ->. Qed.

Lemma run_bind_fail {A B} (c : M A) (k : A → M B) h :
  c h = None → (c ≫= k) h = None.
Proof. unfold mbind, M_bind. by intros ->. Qed.

End heap_facts.

(** Automation: resolve reads through a stack of writes, and run a member
    function one statement at a time. *)

Ltac solve_alloc :=
  repeat first [ rewrite alloc_upd_next | rewrite alloc_upd_prev ];
  eauto using rd_next_alloc, rd_prev_alloc.

Ltac heap_simpl :=
  repeat first
    [ rewrite rd_prev_upd_next
    | rewrite rd_next_upd_prev
    | rewrite rd_next_upd_next_ne by congruence
    | rewrite rd_prev_upd_prev_ne by congruence
    | rewrite rd_next_upd_next_eq by solve_alloc
    | rewrite rd_prev_upd_prev_eq by solve_alloc ].

Ltac solve_read := heap_simpl; first [ eassumption | reflexivity ].

Ltac heap_simpl_all H :=
  repeat first
    [ rewrite rd_prev_upd_next in H
    | rewrite rd_next_upd_prev in H
    | rewrite rd_next_upd_next_ne in H by congruence
    | rewrite rd_prev_upd_prev_ne in H by congruence
    | rewrite rd_next_upd_next_eq in H by solve_alloc
    | rewrite rd_prev_upd_prev_eq in H by solve_alloc ].

Ltac run_step :=
  cbv beta;
  lazymatch goal with
  | |- (mret _ ≫= _) _ = _ => rewrite run_bind_ret
  | |- (get_next _ ≫= _) _ = _ =>
      erewrite run_bind; [| apply run_get_next; solve_read ]
  | |- (get_prev _ ≫= _) _ = _ =>
      erewrite run_bind; [| apply run_get_prev; solve_read ]
  | |- (set_next _ _ ≫= _) _ = _ =>
      erewrite run_bind; [| apply run_set_next; solve_alloc ]
  | |- (set_prev _ _ ≫= _) _ = _ =>
      erewrite run_bind; [| apply run_set_prev; solve_alloc ]
  | |- get_next _ _ = _ => apply run_get_next; solve_read
  | |- get_prev _ _ = _ => apply run_get_prev; solve_read
  | |- set_next _ _ _ = _ => apply run_set_next; solve_alloc
  | |- set_prev _ _ _ = _ => apply run_set_prev; solve_alloc
  | |- mret _ _ = _ => apply run_ret
  end.

Ltac run := repeat run_step.

(** ** What [link] and [unlink] leave in the heap *)

Section link_unlink.
Implicit Types (h : heap) (this p n a b : loc).

Lemma link_run h this p n :
  alloc h this → alloc h p → alloc h n →
  link this p n h
  = Some (tt, upd_next p this (upd_prev n this (upd_prev this p (upd_next this n h)))).
Proof. intros. unfold link. run. Qed.

Lemma unlink_run h this p n :
  rd_next h this = Some n → rd_prev h this = Some p →
  alloc h n → alloc h p →
  unlink this h
  = Some (tt, upd_prev this this (upd_next this this (upd_next p n (upd_prev n p h)))).
Proof.
  intros Hn Hp An Ap. unfold unlink. run_step. run_step. run_step.
  assert (rd_prev (upd_prev n p h) this = Some p) as Hp'.
  { destruct (decide (n = this)) as [->|]; heap_simpl; done. }
  erewrite run_bind; [| apply run_get_prev, Hp' ].
  run.
Qed.

(** [unlink] fails exactly when a pointer it follows is dangling. *)
Lemma unlink_fails h this :
  unlink this h = None ↔
  match h !! this with
  | None => True
  | Some nd => ¬ alloc h (next nd) ∨ ¬ alloc h (prev nd)
  end.
Proof.
  destruct (h !! this) as [[n p]|] eqn:E; simpl.
  - assert (rd_next h this = Some n) as Hn by (unfold rd_next; by rewrite E).
    assert (rd_prev h this = Some p) as Hp by (unfold rd_prev; by rewrite E).
    destruct (h !! n) as [nn|] eqn:En.
    + destruct (h !! p) as [pn|] eqn:Ep.
      * rewrite (unlink_run h this p n) by (unfold alloc; eauto).
        split; [done|]. intros [H|H]; exfalso; apply H; unfold alloc; eauto.
      * split; [right; unfold alloc; rewrite Ep; by intros [? ?]|]. intros _.
        unfold unlink. run_step. run_step.
        erewrite run_bind; [| apply run_set_prev; unfold alloc; eauto ].
        assert (rd_prev (upd_prev n p h) this = Some p) as Hp'.
        { destruct (decide (n = this)) as [->|]; heap_simpl; done. }
        erewrite run_bind; [| apply run_get_prev, Hp' ].
        run_step. apply run_bind_fail. unfold set_next.
        assert (upd_prev n p h !! p = None) as ->; [|done].
        destruct (decide (n = p)) as [->|]; [congruence|].
        by rewrite lookup_upd_prev_ne.
    + split; [left; unfold alloc; rewrite En; by intros [? ?]|]. intros _.
      unfold unlink. run_step. run_step. apply run_bind_fail.
      unfold set_prev. by rewrite En.
  - split; [done|]. intros _. unfold unlink. apply run_bind_fail.
    unfold get_next. by rewrite E.
Qed.

End link_unlink.

(** ** Paths and rings *)

Section paths.
Implicit Types (h : heap) (a b s x y : loc) (l L : list loc).

Lemma final_app a l1 l2 : final a (l1 ++ l2) = final (final a l1) l2.
Proof. revert a. induction l1; intros; simpl; auto. Qed.

Lemma final_snoc a l b : final a (l ++ [b]) = b.
Proof. by rewrite final_app. Qed.

Lemma final_elem a l : final a l ∈ a :: l.
Proof.
  revert a. induction l as [|b l IH]; intros a; simpl.
  - set_solver.
  - pose proof (IH b). set_solver.
Qed.

Lemma srcs_final a l : srcs a l ++ [final a l] = a :: l.
Proof.
  revert a. induction l as [|b l IH]; intros a; simpl; [done|].
  by rewrite IH.
Qed.

Lemma srcs_app a l1 l2 : srcs a (l1 ++ l2) = srcs a l1 ++ srcs (final a l1) l2.
Proof.
  revert a. induction l1 as [|b l1 IH]; intros a; simpl; [done|].
  by rewrite IH.
Qed.

Lemma srcs_snoc a l b : srcs a (l ++ [b]) = a :: l.
Proof. rewrite srcs_app. simpl. apply srcs_final. Qed.

Lemma srcs_subseteq a l x : x ∈ srcs a l → x ∈ a :: l.
Proof. rewrite <- srcs_final. set_solver. Qed.

Lemma srcs_not_final a l : NoDup (a :: l) → final a l ∉ srcs a l.
Proof.
  rewrite <- srcs_final, NoDup_app. intros (_ & H & _) Hin.
  apply (H _ Hin). set_solver.
Qed.

(** [B ++ [s]] starts with the position of the suffix [B]: its first
    element, or [end()]. *)
Lemma snoc_hd_tl l s : l ++ [s] = hd s l :: tail (l ++ [s]).
Proof. by destruct l. Qed.

Lemma hd_elem s l : hd s l ∈ s :: l.
Proof. destruct l; set_solver. Qed.

Lemma tail_snoc_subseteq l s x : x ∈ tail (l ++ [s]) → x ∈ s :: l.
Proof. destruct l; simpl; set_solver. Qed.

Lemma path_app h a l1 l2 :
  path h a (l1 ++ l2) ↔ path h a l1 ∧ path h (final a l1) l2.
Proof.
  revert a. induction l1 as [|b l1 IH]; intros a; simpl.
  - tauto.
  - rewrite IH. tauto.
Qed.

Lemma path_app_cons h a l1 b l2 :
  path h a (l1 ++ b :: l2) ↔ path h a l1 ∧ adj h (final a l1) b ∧ path h b l2.
Proof. by rewrite path_app. Qed.

Lemma path_snoc h a l b :
  path h a (l ++ [b]) ↔ path h a l ∧ adj h (final a l) b.
Proof. rewrite path_app_cons. simpl. tauto. Qed.

Lemma adj_alloc_l h a b : adj h a b → alloc h a.
Proof. intros [H _]. eauto using rd_next_alloc. Qed.

Lemma adj_alloc_r h a b : adj h a b → alloc h b.
Proof. intros [_ H]. eauto using rd_prev_alloc. Qed.

(** Every node of a path is adjacent to its neighbours on it. *)
Lemma path_src_adj h a l x :
  path h a l → x ∈ srcs a l → ∃ y, y ∈ l ∧ adj h x y.
Proof.
  revert a. induction l as [|b l IH]; intros a; simpl; [set_solver|].
  intros [Hab Hp] Hx. apply elem_of_cons in Hx as [->|Hx].
  - exists b. split; [set_solver|done].
  - destruct (IH _ Hp Hx) as (y & ? & ?). exists y. set_solver.
Qed.

Lemma path_tgt_adj h a l y :
  path h a l → y ∈ l → ∃ x, x ∈ srcs a l ∧ adj h x y.
Proof.
  revert a. induction l as [|b l IH]; intros a; simpl; [set_solver|].
  intros [Hab Hp] Hy. apply elem_of_cons in Hy as [->|Hy].
  - exists a. split; [set_solver|done].
  - destruct (IH _ Hp Hy) as (x & ? & ?). exists x. set_solver.
Qed.

(** A path survives any change of the heap that keeps the [next] field of
    its sources and the [prev] field of its targets. *)
Lemma path_frame h h' a l :
  path h a l →
  (∀ x, x ∈ srcs a l → rd_next h' x = rd_next h x) →
  (∀ y, y ∈ l → rd_prev h' y = rd_prev h y) →
  path h' a l.
Proof.
  revert a. induction l as [|b l IH]; intros a; simpl; [done|].
  intros [[Hn Hp] Hl] Hs Ht. split.
  - split; [rewrite Hs | rewrite Ht]; set_solver.
  - apply IH; [done| |]; intros; [apply Hs | apply Ht]; set_solver.
Qed.

Lemma path_frame_adj h h' a l :
  path h a l →
  (∀ x y, x ∈ srcs a l → y ∈ l → adj h x y → adj h' x y) →
  path h' a l.
Proof.
  revert a. induction l as [|b l IH]; intros a; simpl; [done|].
  intros [Hab Hl] Hf. split.
  - apply Hf; [set_solver..|done].
  - apply IH; [done|]. intros x y Hx Hy. apply Hf; set_solver.
Qed.

Lemma path_frame_lookup h h' a l :
  path h a l →
  (∀ x, x ∈ a :: l → h' !! x = h !! x) →
  path h' a l.
Proof.
  intros Hp Hs. apply (path_frame h); [done| |]; intros x Hx.
  - unfold rd_next. rewrite Hs; [done|]. by apply srcs_subseteq.
  - unfold rd_prev. rewrite Hs; [done|]. set_solver.
Qed.

Lemma ring_frame h h' s L :
  ring h s L →
  (∀ x, x ∈ s :: L → h' !! x = h !! x) →
  ring h' s L.
Proof.
  intros [Hnd Hp] Hs. split; [done|].
  apply (path_frame_lookup h); [done|]. intros x Hx. apply Hs. set_solver.
Qed.

Lemma ring_alloc h s L x : ring h s L → x ∈ s :: L → alloc h x.
Proof.
  intros [_ Hp] Hx. rewrite <- (srcs_snoc s L s) in Hx.
  destruct (path_src_adj _ _ _ _ Hp Hx) as (y & _ & Hy).
  by eapply adj_alloc_l.
Qed.

(** The ring invariant of the source, node by node. *)
Lemma ring_next h s L x :
  ring h s L → x ∈ s :: L → ∃ y, y ∈ s :: L ∧ adj h x y.
Proof.
  intros [_ Hp] Hx. rewrite <- (srcs_snoc s L s) in Hx.
  destruct (path_src_adj _ _ _ _ Hp Hx) as (y & Hy & Hxy).
  exists y. split; [set_solver|done].
Qed.

Lemma ring_prev h s L y :
  ring h s L → y ∈ s :: L → ∃ x, x ∈ s :: L ∧ adj h x y.
Proof.
  intros [_ Hp] Hy.
  assert (y ∈ L ++ [s]) as Hy' by set_solver.
  destruct (path_tgt_adj _ _ _ _ Hp Hy') as (x & Hx & Hxy).
  exists x. split; [|done]. by rewrite srcs_snoc in Hx.
Qed.

Lemma ring_nil h s : ring h s [] ↔ unlinked h s.
Proof.
  unfold ring, unlinked. simpl. unfold adj, rd_next, rd_prev. split.
  - intros (_ & [Hn Hp] & _). destruct (h !! s) as [[n p]|]; simpl in *; congruence.
  - intros ->. simpl. split; [apply NoDup_singleton|done].
Qed.

Lemma srcs_hd_tail s Y : srcs (hd s Y) (tail (Y ++ [s])) = Y.
Proof. destruct Y as [|y Y]; simpl; [done|]. apply srcs_snoc. Qed.

End paths.

(** ** The three pointer surgeries, on adjacent pairs *)

Section surgery.
Implicit Types (h : heap) (this p n a b x y f l q sl pos : loc).

(** [link] of a node between two adjacent nodes. *)
Lemma link_between h this p n :
  alloc h this → adj h p n → this ≠ p → this ≠ n →
  ∃ h', link this p n h = Some (tt, h')
    ∧ adj h' p this ∧ adj h' this n
    ∧ (∀ x y, adj h x y → x ≠ p → x ≠ this → y ≠ this → adj h' x y)
    ∧ (∀ x, x ≠ this → x ≠ p → x ≠ n → h' !! x = h !! x)
    ∧ (∀ x, alloc h' x ↔ alloc h x).
Proof.
  intros At Hpn Hp Hn.
  pose proof (adj_alloc_l _ _ _ Hpn) as Ap.
  pose proof (adj_alloc_r _ _ _ Hpn) as An.
  eexists. split; [by apply link_run|].
  split_and!.
  - split; heap_simpl; done.
  - split; heap_simpl; done.
  - intros x y [Hx Hy] Hxp Hxt Hyt.
    assert (y ≠ n) by (intros ->; destruct Hpn; congruence).
    split; heap_simpl; done.
  - intros x ???. rewrite lookup_upd_next_ne, !lookup_upd_prev_ne, lookup_upd_next_ne; done.
  - intros x. solve_alloc.
Qed.

(** [unlink] of a node that sits between [p] and [n]. *)
Lemma unlink_between h this p n :
  adj h p this → adj h this n → this ≠ p → this ≠ n →
  ∃ h', unlink this h = Some (tt, h')
    ∧ adj h' p n ∧ unlinked h' this
    ∧ (∀ x y, adj h x y → x ≠ p → x ≠ this → adj h' x y)
    ∧ (∀ x, x ≠ this → x ≠ p → x ≠ n → h' !! x = h !! x)
    ∧ (∀ x, alloc h' x ↔ alloc h x).
Proof.
  intros Hpt Htn Hp Hn.
  pose proof (adj_alloc_l _ _ _ Hpt) as Ap.
  pose proof (adj_alloc_r _ _ _ Htn) as An.
  pose proof (adj_alloc_r _ _ _ Hpt) as At.
  destruct Hpt as [Hpt1 Hpt2], Htn as [Htn1 Htn2].
  eexists. split; [by apply unlink_run|].
  split_and!.
  - split; heap_simpl; done.
  - apply ring_nil. split; [apply NoDup_singleton|]. simpl.
    split; [|done]. split; heap_simpl; done.
  - intros x y [Hx Hy] Hxp Hxt.
    assert (y ≠ n) by (intros ->; congruence).
    assert (y ≠ this) by (intros ->; congruence).
    split; heap_simpl; done.
  - intros x ???.
    rewrite lookup_upd_prev_ne, !lookup_upd_next_ne, lookup_upd_prev_ne; done.
  - intros x. solve_alloc.
Qed.

(** [unlink] of a node in the unlinked state changes nothing. *)
Lemma unlink_unlinked h this :
  unlinked h this → unlink this h = Some (tt, h).
Proof.
  intros Hu.
  assert (rd_next h this = Some this) as Hn by (unfold rd_next; by rewrite Hu).
  assert (rd_prev h this = Some this) as Hp by (unfold rd_prev; by rewrite Hu).
  assert (alloc h this) as Ha by (by eexists).
  rewrite (unlink_run h this this this) by done.
  rewrite (upd_prev_id h) by done. rewrite (upd_next_id h) by done.
  rewrite (upd_next_id h) by done. by rewrite (upd_prev_id h).
Qed.

(** After [unlink], the node is in the unlinked state. *)
Lemma unlink_leaves_unlinked h h' this :
  unlink this h = Some (tt, h') → unlinked h' this.
Proof.
  intros Hrun.
  destruct (h !! this) as [[n p]|] eqn:E.
  - assert (rd_next h this = Some n) as Hn by (unfold rd_next; by rewrite E).
    assert (rd_prev h this = Some p) as Hp by (unfold rd_prev; by rewrite E).
    destruct (decide (alloc h n)) as [An|An];
      [destruct (decide (alloc h p)) as [Ap|Ap]|].
    + rewrite (unlink_run h this p n) in Hrun by done.
      injection Hrun as <-.
      assert (alloc h this) by (by eexists).
      apply ring_nil. split; [apply NoDup_singleton|]. simpl.
      split; [|done]. split; heap_simpl; done.
    + assert (unlink this h = None) as Hf; [|congruence].
      apply unlink_fails. rewrite E. by right.
    + assert (unlink this h = None) as Hf; [|congruence].
      apply unlink_fails. rewrite E. by left.
  - assert (unlink this h = None) as Hf; [|congruence].
    apply unlink_fails. by rewrite E.
Qed.

(** [splice] statement by statement, when the range is non-empty and does
    not end at [pos]. *)
Lemma splice_run h this pos other f l p sl q :
  f ≠ l → pos ≠ l →
  rd_prev h f = Some p → rd_prev h l = Some sl → rd_prev h pos = Some q →
  alloc h p → alloc h sl → alloc h q →
  splice this pos other f l h
  = Some (tt, upd_prev pos sl (upd_next sl pos (upd_prev f q
               (upd_next q f (upd_prev l p (upd_next p l h)))))).
Proof.
  intros Hfl Hpl Hf Hl Hq Ap Asl Aq. unfold splice, Iter.eqb.
  rewrite bool_decide_eq_false_2 by done. run.
Qed.

(** ... and when it does end at [pos]. *)
Lemma splice_run_at_last h this other f l p sl :
  f ≠ l →
  rd_prev h f = Some p → rd_prev h l = Some sl →
  alloc h p → alloc h sl →
  splice this l other f l h
  = Some (tt, upd_prev l sl (upd_next sl l (upd_prev f p
               (upd_next p f (upd_prev l p (upd_next p l h)))))).
Proof.
  intros Hfl Hf Hl Ap Asl. unfold splice, Iter.eqb.
  rewrite bool_decide_eq_false_2 by done. run.
Qed.

Lemma splice_empty_range h this pos other f :
  splice this pos other f f h = Some (tt, h).
Proof. unfold splice, Iter.eqb. by rewrite bool_decide_eq_true_2. Qed.

(** Moving the range [f .. sl] from between [p] and [l] to between [q]
    and [pos]. *)
Lemma splice_between h this pos other f l p sl q :
  adj h p f → adj h sl l → adj h q pos →
  f ≠ l → pos ≠ l → pos ≠ f →
  ∃ h', splice this pos other f l h = Some (tt, h')
    ∧ adj h' p l ∧ adj h' q f ∧ adj h' sl pos
    ∧ (∀ x y, adj h x y → x ≠ p → x ≠ q → x ≠ sl → adj h' x y)
    ∧ (∀ x, x ≠ p → x ≠ q → x ≠ sl → x ≠ f → x ≠ l → x ≠ pos →
            h' !! x = h !! x)
    ∧ (∀ x, alloc h' x ↔ alloc h x).
Proof.
  intros Hpf Hsl Hq Hfl Hpl Hpf'.
  pose proof (adj_alloc_l _ _ _ Hpf) as Ap.
  pose proof (adj_alloc_l _ _ _ Hsl) as Asl.
  pose proof (adj_alloc_l _ _ _ Hq) as Aq.
  pose proof (adj_alloc_r _ _ _ Hpf) as Af.
  pose proof (adj_alloc_r _ _ _ Hsl) as Al.
  pose proof (adj_alloc_r _ _ _ Hq) as Apos.
  destruct Hpf as [Hpf1 Hpf2], Hsl as [Hsl1 Hsl2], Hq as [Hq1 Hq2].
  assert (p ≠ sl) by congruence.
  assert (p ≠ q) by congruence.
  assert (q ≠ sl) by congruence.
  eexists. split; [by eapply splice_run|].
  split_and!.
  - split; heap_simpl; done.
  - split; heap_simpl; done.
  - split; heap_simpl; done.
  - intros x y [Hx Hy] Hxp Hxq Hxsl.
    assert (y ≠ f) by (intros ->; congruence).
    assert (y ≠ l) by (intros ->; congruence).
    assert (y ≠ pos) by (intros ->; congruence).
    split; heap_simpl; done.
  - intros x ??????.
    rewrite lookup_upd_prev_ne, lookup_upd_next_ne, lookup_upd_prev_ne,
      lookup_upd_next_ne, lookup_upd_prev_ne, lookup_upd_next_ne; done.
  - intros x. solve_alloc.
Qed.

(** Moving a range to where it already is changes nothing. *)
Lemma splice_at_last h this other f l p sl :
  adj h p f → adj h sl l → f ≠ l →
  splice this l other f l h = Some (tt, h).
Proof.
  intros Hpf Hsl Hfl.
  pose proof (adj_alloc_l _ _ _ Hpf) as Ap.
  pose proof (adj_alloc_l _ _ _ Hsl) as Asl.
  pose proof (adj_alloc_r _ _ _ Hpf) as Af.
  pose proof (adj_alloc_r _ _ _ Hsl) as Al.
  destruct Hpf as [Hpf1 Hpf2], Hsl as [Hsl1 Hsl2].
  assert (p ≠ sl) by congruence.
  erewrite splice_run_at_last by done. do 2 f_equal.
  apply heap_ext; intros x.
  - destruct (decide (x = sl)) as [->|]; [heap_simpl; done|].
    destruct (decide (x = p)) as [->|]; heap_simpl; done.
  - destruct (decide (x = l)) as [->|]; [heap_simpl; done|].
    destruct (decide (x = f)) as [->|]; heap_simpl; done.
Qed.

End surgery.

(** Membership and distinctness of nodes.  The heaps are forgotten, the ends
    of paths are named, every membership hypothesis is split into the atomic
    lists it ranges over, and each case is closed by one of the [NoDup] or
    disjointness facts at hand. *)
Ltac forget_heaps :=
  repeat match goal with
         | h : gmap nat list_element |- _ => clear dependent h
         end.

Ltac name_ends :=
  repeat match goal with
         | |- context [final ?a ?l] =>
             pose proof (final_elem a l); generalize dependent (final a l); intros
         | H : context [final ?a ?l] |- _ =>
             pose proof (final_elem a l); generalize dependent (final a l); intros
         | |- context [hd ?a ?l] =>
             pose proof (hd_elem a l); generalize dependent (hd a l); intros
         | H : context [hd ?a ?l] |- _ =>
             pose proof (hd_elem a l); generalize dependent (hd a l); intros
         end.

Ltac open_NoDup :=
  repeat match goal with
         | H : NoDup (_ :: _) |- _ => apply NoDup_cons in H as [? ?]
         | H : NoDup (_ ++ _) |- _ => apply NoDup_app in H as (? & ? & ?)
         end.

Ltac solve_elem :=
  lazymatch goal with
  | |- _ ∈ _ :: _ =>
      first [ apply elem_of_cons; left; reflexivity
            | apply elem_of_cons; right; solve_elem ]
  | |- _ ∈ _ ++ _ =>
      first [ apply elem_of_app; left; solve_elem
            | apply elem_of_app; right; solve_elem ]
  | |- _ ∈ _ => assumption
  end.

Ltac mem_split :=
  repeat match goal with
         | H : _ ∈ [] |- _ => apply elem_of_nil in H; destruct H
         | H : _ ∈ _ :: _ |- _ => apply elem_of_cons in H as [H|H]
         | H : _ ∈ _ ++ _ |- _ => apply elem_of_app in H as [H|H]
         end.

Ltac mem_close :=
  subst;
  first
    [ congruence
    | match goal with
      | H : _ ∉ _ |- _ => apply H; solve_elem
      | H : ∀ x, x ∈ ?L1 → x ∉ ?L2 |- _ =>
          match goal with
          | e : nat |- _ => apply (H e); solve_elem
          end
      end ].

Ltac mem_goal :=
  lazymatch goal with
  | |- _ ∧ _ => split; mem_goal
  | |- NoDup [] => apply NoDup_nil_2
  | |- NoDup (_ :: _) => apply NoDup_cons; split; mem_goal
  | |- NoDup (_ ++ _) => apply NoDup_app; split_and!; mem_goal
  | |- NoDup _ => assumption
  | |- ¬ _ => intro; mem_goal
  | |- ∀ _, _ => intro; mem_goal
  | |- False => mem_split; mem_close
  end.

Ltac mem_solver :=
  forget_heaps; name_ends; open_NoDup; mem_goal.

(** A source of a path is a node of it other than its last one. *)
Ltac keep_srcs H :=
  rewrite ?srcs_hd_tail in H;
  try lazymatch type of H with
      | ?x ∈ srcs ?a ?l =>
          let Hf := fresh "Hfin" in
          assert (x ≠ final a l) as Hf
            by (intros ->; revert H; apply srcs_not_final; mem_solver);
          apply srcs_subseteq in H
      end.

(** ** Rings under the container's operations *)

Section rings.
Implicit Types (h : heap) (s e x y a b : loc) (L X Y : list loc).

(** A ring cut at a position: the part before it, the link across the
    cut, and the part from the position on, back to the sentinel. *)
Lemma ring_split h s X Y :
  ring h s (X ++ Y) ↔
  NoDup (s :: X ++ Y)
  ∧ path h s X
  ∧ adj h (final s X) (hd s Y)
  ∧ path h (hd s Y) (tail (Y ++ [s])).
Proof.
  unfold ring.
  rewrite <- (assoc_L (++)), (snoc_hd_tl Y s), path_app_cons.
  by rewrite <- (snoc_hd_tl Y s).
Qed.

Lemma ring_split3 h s X x Y :
  ring h s (X ++ x :: Y) ↔
  NoDup (s :: X ++ x :: Y)
  ∧ path h s X
  ∧ adj h (final s X) x
  ∧ adj h x (hd s Y)
  ∧ path h (hd s Y) (tail (Y ++ [s])).
Proof.
  unfold ring.
  rewrite <- (assoc_L (++)). simpl.
  rewrite (snoc_hd_tl Y s), path_app_cons. simpl. done.
Qed.

(** The reads the operations start with. *)
Lemma ring_rd_prev h s X Y :
  ring h s (X ++ Y) → rd_prev h (hd s Y) = Some (final s X).
Proof. rewrite ring_split. by intros (_ & _ & [_ ?] & _). Qed.

Lemma ring_rd_next h s X Y :
  ring h s (X ++ Y) → rd_next h (final s X) = Some (hd s Y).
Proof. rewrite ring_split. by intros (_ & _ & [? _] & _). Qed.

Lemma ring_rd_prev_sentinel h s L : ring h s L → rd_prev h s = Some (final s L).
Proof. intros H. rewrite <- (app_nil_r L) in H. by apply ring_rd_prev in H. Qed.

Lemma ring_rd_next_sentinel h s L : ring h s L → rd_next h s = Some (hd s L).
Proof. intros H. by apply (ring_rd_next h s []) in H. Qed.

(** [link] in a ring, at a cut. *)
Lemma link_in_ring h s X Y e :
  ring h s (X ++ Y) → alloc h e → e ∉ s :: X ++ Y →
  ∃ h', link e (final s X) (hd s Y) h = Some (tt, h')
    ∧ ring h' s (X ++ e :: Y)
    ∧ (∀ x, x ≠ e → x ∉ s :: X ++ Y → h' !! x = h !! x)
    ∧ (∀ x, alloc h' x ↔ alloc h x).
Proof.
  intros (Hnd & HX & Hcut & HY)%ring_split Ae He.
  destruct (link_between h e (final s X) (hd s Y))
    as (h' & Hrun & H1 & H2 & Hfr & Hlk & Hal); [done|done|mem_solver..|].
  exists h'. split; [done|]. split_and!; [|intros x ??; apply Hlk; mem_solver|done].
  apply ring_split3. split_and!; [mem_solver| |done|done|].
  - apply (path_frame_adj h); [done|]. intros x y Hx Hy Hxy.
    apply Hfr; [done| | |mem_solver].
    + intros ->. revert Hx. apply srcs_not_final. mem_solver.
    + apply srcs_subseteq in Hx. mem_solver.
  - apply (path_frame_adj h); [done|]. intros x y Hx Hy Hxy.
    rewrite srcs_hd_tail in Hx. apply tail_snoc_subseteq in Hy.
    apply Hfr; [done|mem_solver..].
Qed.

(** [unlink] of an element of a ring. *)
Lemma unlink_in_ring h s X x Y :
  ring h s (X ++ x :: Y) →
  ∃ h', unlink x h = Some (tt, h')
    ∧ ring h' s (X ++ Y)
    ∧ unlinked h' x
    ∧ (∀ z, z ∉ s :: X ++ x :: Y → h' !! z = h !! z)
    ∧ (∀ z, alloc h' z ↔ alloc h z).
Proof.
  intros (Hnd & HX & Hpx & Hxn & HY)%ring_split3.
  destruct (unlink_between h x (final s X) (hd s Y))
    as (h' & Hrun & H1 & H2 & Hfr & Hlk & Hal); [done|done|mem_solver..|].
  exists h'. split; [done|].
  split_and!; [|done|intros z ?; apply Hlk; mem_solver|done].
  apply ring_split. split_and!; [mem_solver| |done|].
  - apply (path_frame_adj h); [done|]. intros a b Ha Hb Hab.
    apply Hfr; [done| |].
    + intros ->. revert Ha. apply srcs_not_final. mem_solver.
    + apply srcs_subseteq in Ha. mem_solver.
  - apply (path_frame_adj h); [done|]. intros a b Ha Hb Hab.
    rewrite srcs_hd_tail in Ha.
    apply Hfr; [done|mem_solver..].
Qed.

Lemma push_back_ring h s L e :
  ring h s L → alloc h e → e ∉ s :: L →
  ∃ h', push_back s e h = Some (tt, h')
    ∧ ring h' s (L ++ [e])
    ∧ (∀ x, x ≠ e → x ∉ s :: L → h' !! x = h !! x)
    ∧ (∀ x, alloc h' x ↔ alloc h x).
Proof.
  intros Hr Ae He. pose proof (ring_rd_prev_sentinel _ _ _ Hr) as Hp.
  rewrite <- (app_nil_r L) in Hr, He.
  destruct (link_in_ring h s L [] e Hr Ae He) as (h' & Hrun & Hr' & Hfr & Hal).
  exists h'. split_and!; [|done| |done].
  - unfold push_back. erewrite run_bind; [|by apply run_get_prev]. done.
  - intros x ??. apply Hfr; [done|]. by rewrite app_nil_r.
Qed.

Lemma push_front_ring h s L e :
  ring h s L → alloc h e → e ∉ s :: L →
  ∃ h', push_front s e h = Some (tt, h')
    ∧ ring h' s (e :: L)
    ∧ (∀ x, x ≠ e → x ∉ s :: L → h' !! x = h !! x)
    ∧ (∀ x, alloc h' x ↔ alloc h x).
Proof.
  intros Hr Ae He. pose proof (ring_rd_next_sentinel _ _ _ Hr) as Hn.
  destruct (link_in_ring h s [] L e Hr Ae He) as (h' & Hrun & Hr' & Hfr & Hal).
  exists h'. split_and!; [|done..].
  unfold push_front. erewrite run_bind; [|by apply run_get_next]. done.
Qed.

Lemma insert_ring h s X Y e :
  ring h s (X ++ Y) → alloc h e → e ∉ s :: X ++ Y →
  ∃ h', insert s (hd s Y) e h = Some (e, h')
    ∧ ring h' s (X ++ e :: Y)
    ∧ (∀ x, x ≠ e → x ∉ s :: X ++ Y → h' !! x = h !! x)
    ∧ (∀ x, alloc h' x ↔ alloc h x).
Proof.
  intros Hr Ae He. pose proof (ring_rd_prev _ _ _ _ Hr) as Hp.
  destruct (link_in_ring h s X Y e Hr Ae He) as (h' & Hrun & Hr' & Hfr & Hal).
  exists h'. split_and!; [|done..].
  unfold insert. erewrite run_bind; [|by apply run_get_prev].
  erewrite run_bind; [|done]. done.
Qed.

Lemma pop_back_ring h s L x :
  ring h s (L ++ [x]) →
  ∃ h', pop_back s h = Some (tt, h')
    ∧ ring h' s L
    ∧ unlinked h' x
    ∧ (∀ z, z ∉ s :: L ++ [x] → h' !! z = h !! z)
    ∧ (∀ z, alloc h' z ↔ alloc h z).
Proof.
  intros Hr. pose proof (ring_rd_prev_sentinel _ _ _ Hr) as Hp.
  rewrite final_snoc in Hp.
  destruct (unlink_in_ring h s L x [] Hr) as (h' & Hrun & Hr' & Hu & Hfr & Hal).
  exists h'. rewrite app_nil_r in Hr'. split_and!; [|done..].
  unfold pop_back. erewrite run_bind; [|by apply run_get_prev]. done.
Qed.

Lemma pop_front_ring h s L x :
  ring h s (x :: L) →
  ∃ h', pop_front s h = Some (tt, h')
    ∧ ring h' s L
    ∧ unlinked h' x
    ∧ (∀ z, z ∉ s :: x :: L → h' !! z = h !! z)
    ∧ (∀ z, alloc h' z ↔ alloc h z).
Proof.
  intros Hr. pose proof (ring_rd_next_sentinel _ _ _ Hr) as Hn. simpl in Hn.
  destruct (unlink_in_ring h s [] x L Hr) as (h' & Hrun & Hr' & Hu & Hfr & Hal).
  exists h'. split_and!; [|done..].
  unfold pop_front. erewrite run_bind; [|by apply run_get_next]. done.
Qed.

Lemma erase_ring h s X x Y :
  ring h s (X ++ x :: Y) →
  ∃ h', erase s x h = Some (hd s Y, h')
    ∧ ring h' s (X ++ Y)
    ∧ unlinked h' x
    ∧ (∀ z, z ∉ s :: X ++ x :: Y → h' !! z = h !! z)
    ∧ (∀ z, alloc h' z ↔ alloc h z).
Proof.
  intros Hr.
  pose proof Hr as (Hnd & HX & Hpx & [Hxn Hnx] & HY)%ring_split3.
  destruct (unlink_in_ring h s X x Y Hr) as (h' & Hrun & Hr' & Hu & Hfr & Hal).
  exists h'. split_and!; [|done..].
  unfold erase, Iter.incr. erewrite run_bind; [|by apply run_get_next].
  erewrite run_bind; [|by apply run_get_prev].
  erewrite run_bind; [|done]. done.
Qed.

(** Iteration from [begin()] to [end()] visits the elements in order. *)
Lemma iterate_path h s X fuel :
  s ∉ X → length X < fuel →
  path h (hd s X) (tail (X ++ [s])) →
  iterate fuel s (hd s X) h = Some (Some X, h).
Proof.
  revert fuel. induction X as [|x X IH]; intros fuel Hs Hlen Hp;
    (destruct fuel as [|fuel]; [simpl in Hlen; lia|]); simpl.
  - unfold end_. rewrite run_bind_ret. unfold Iter.eqb.
    by rewrite bool_decide_eq_true_2.
  - unfold end_. rewrite run_bind_ret. unfold Iter.eqb.
    rewrite bool_decide_eq_false_2 by set_solver.
    simpl in Hp. rewrite (snoc_hd_tl X s) in Hp. destruct Hp as [[Hn _] Hp].
    unfold Iter.incr. erewrite run_bind; [|by apply run_get_next].
    erewrite run_bind; [|apply IH; [set_solver|simpl in Hlen; lia|done]].
    done.
Qed.

Lemma to_list_ring h s L fuel :
  ring h s L → length L < fuel →
  to_list fuel s h = Some (Some L, h).
Proof.
  intros [Hnd Hp] Hlen. rewrite (snoc_hd_tl L s) in Hp. destruct Hp as [[Hn _] Hp].
  unfold to_list, begin_. erewrite run_bind; [|by apply run_get_next].
  apply iterate_path; [|done..]. apply NoDup_cons in Hnd as [? _]. done.
Qed.

Lemma final_in s L : L ≠ [] → final s L ∈ L.
Proof.
  destruct L as [|x L]; [done|]. intros _. simpl. apply final_elem.
Qed.

Lemma empty_ring h s L :
  ring h s L → empty s h = Some (bool_decide (L = []), h).
Proof.
  intros Hr. pose proof (ring_rd_prev_sentinel _ _ _ Hr) as Hp.
  unfold empty. erewrite run_bind; [|by apply run_get_prev].
  rewrite run_ret. do 2 f_equal. apply bool_decide_ext.
  destruct Hr as [Hnd _]. split.
  - intros Hf. destruct (decide (L = [])) as [|Hne]; [done|].
    apply (final_in s) in Hne. rewrite Hf in Hne.
    apply NoDup_cons in Hnd as [? _]. done.
  - by intros ->.
Qed.

Lemma front_ring h s x L : ring h s (x :: L) → front s h = Some (x, h).
Proof.
  intros Hr. apply run_get_next. by apply ring_rd_next_sentinel in Hr.
Qed.

Lemma back_ring h s L x : ring h s (L ++ [x]) → back s h = Some (x, h).
Proof.
  intros Hr. apply run_get_prev. apply ring_rd_prev_sentinel in Hr.
  by rewrite final_snoc in Hr.
Qed.

Lemma list_ctor_run h s : list_ctor s h = Some (tt, <[s := Node s s]> h).
Proof.
  unfold list_ctor, list_element_ctor.
  erewrite run_bind; [|reflexivity].
  assert (alloc (<[s := Node s s]> h) s) as Ha.
  { unfold alloc. rewrite lookup_insert_eq. by eexists. }
  erewrite run_bind; [|by apply run_set_next].
  rewrite run_set_prev by solve_alloc. do 2 f_equal.
  rewrite (upd_next_id _ s s);
    [rewrite (upd_prev_id _ s s); [done|] |];
    unfold rd_next, rd_prev; by rewrite lookup_insert_eq.
Qed.

Lemma list_ctor_ring h s :
  ∃ h', list_ctor s h = Some (tt, h')
    ∧ ring h' s []
    ∧ (∀ x, x ≠ s → h' !! x = h !! x)
    ∧ (∀ x, alloc h' x ↔ x = s ∨ alloc h x).
Proof.
  eexists. split; [apply list_ctor_run|]. split_and!.
  - apply ring_nil. unfold unlinked. by rewrite lookup_insert_eq.
  - intros x ?. by rewrite lookup_insert_ne.
  - intros x. unfold alloc. rewrite lookup_insert. case_decide; subst.
    + split; [by left|by eexists].
    + split; [by right|]. by intros [|].
Qed.

Lemma clear_ring h s :
  alloc h s →
  ∃ h', clear s h = Some (tt, h')
    ∧ ring h' s []
    ∧ (∀ x, x ≠ s → h' !! x = h !! x)
    ∧ (∀ x, alloc h' x ↔ alloc h x).
Proof.
  intros Ha. exists (upd_prev s s (upd_next s s h)). split_and!.
  - unfold clear. run.
  - split; [apply NoDup_singleton|]. simpl. split; [|done].
    split; heap_simpl; done.
  - intros x ?. by rewrite lookup_upd_prev_ne, lookup_upd_next_ne.
  - intros x. solve_alloc.
Qed.

(** Move assignment between two different lists. *)
Lemma move_assign_ring h this other L :
  ring h other L → alloc h this → this ∉ other :: L →
  ∃ h', move_assign this other h = Some (tt, h')
    ∧ ring h' this L
    ∧ ring h' other []
    ∧ (∀ x, x ≠ this → x ∉ other :: L → h' !! x = h !! x)
    ∧ (∀ x, alloc h' x ↔ alloc h x).
Proof.
  intros Hr At Ht.
  destruct (clear_ring h this At) as (h1 & Hc1 & Hr1 & Hf1 & Ha1).
  assert (ring h1 other L) as Hro.
  { apply (ring_frame h); [done|]. intros x Hx. apply Hf1. set_solver. }
  unfold move_assign.
  erewrite run_bind; [|exact Hc1].
  erewrite run_bind; [|by apply empty_ring].
  destruct L as [|x L].
  - rewrite bool_decide_eq_true_2 by done. simpl. rewrite run_bind_ret.
    destruct (clear_ring h1 other) as (h2 & Hc2 & Hr2 & Hf2 & Ha2).
    { eapply ring_alloc; [done|set_solver]. }
    exists h2. split_and!; [done| |done| |].
    + apply (ring_frame h1); [done|]. intros y Hy. apply Hf2. set_solver.
    + intros y ??. rewrite Hf2 by set_solver. by apply Hf1.
    + intros y. by rewrite Ha2, Ha1.
  - rewrite bool_decide_eq_false_2 by done. simpl.
    pose proof (ring_rd_prev_sentinel _ _ _ Hro) as Hp. simpl in Hp.
    pose proof (ring_rd_next_sentinel _ _ _ Hro) as Hn. simpl in Hn.
    pose proof Hro as [Hnd Hpath]. simpl in Hpath.
    destruct Hpath as [Hox Hpath]. apply path_snoc in Hpath as [Hpath Hto].
    set (t := final x L) in *.
    assert (alloc h1 this) as At1 by (by apply Ha1).
    assert (alloc h1 other) as Ao1 by (by eapply adj_alloc_l).
    assert (alloc h1 x) as Ax1 by (by eapply adj_alloc_r).
    assert (alloc h1 t) as At1' by (by eapply adj_alloc_l).
    assert (this ≠ other ∧ this ≠ x ∧ this ≠ t ∧ t ≠ other ∧ x ≠ other)
      as (? & ? & ? & ? & ?).
    { subst t. clear -Hnd Ht. split_and!; mem_solver. }
    erewrite run_bind;
      [|erewrite run_bind; [|by apply run_get_prev];
        erewrite run_bind; [|by apply run_get_next];
        by apply link_run].
    eexists. split; [unfold clear; run|].
    split_and!.
    + split; [clear -Hnd Ht; mem_solver|]. simpl. split.
      { split; heap_simpl; done. }
      apply path_snoc. split.
      * apply (path_frame h1); [done| |].
        -- intros y Hy.
           assert (y ≠ t) by (intros ->; revert Hy; apply srcs_not_final;
                             clear -Hnd; mem_solver).
           apply srcs_subseteq in Hy.
           assert (y ≠ other ∧ y ≠ this) as [? ?]
             by (clear -Hnd Ht Hy; split; mem_solver).
           heap_simpl. done.
        -- intros y Hy.
           assert (y ≠ other ∧ y ≠ this ∧ y ≠ x) as (? & ? & ?)
             by (clear -Hnd Ht Hy; split_and!; mem_solver).
           heap_simpl. done.
      * fold t. split; heap_simpl; done.
    + split; [apply NoDup_singleton|]. simpl. split; [|done].
      split; heap_simpl; done.
    + intros y Hy1 Hy2.
      assert (y ≠ other ∧ y ≠ x ∧ y ≠ t) as (? & ? & ?).
      { subst t. clear -Hy2. split_and!; mem_solver. }
      rewrite lookup_upd_prev_ne, !lookup_upd_next_ne, !lookup_upd_prev_ne,
        lookup_upd_next_ne by done.
      apply Hf1. done.
    + intros y. rewrite <- Ha1. solve_alloc.
Qed.

(** Move assignment of a list to itself. *)
Lemma move_assign_self h s :
  alloc h s →
  ∃ h', move_assign s s h = Some (tt, h')
    ∧ ring h' s []
    ∧ (∀ x, x ≠ s → h' !! x = h !! x)
    ∧ (∀ x, alloc h' x ↔ alloc h x).
Proof.
  intros Ha.
  destruct (clear_ring h s Ha) as (h1 & Hc1 & Hr1 & Hf1 & Ha1).
  destruct (clear_ring h1 s) as (h2 & Hc2 & Hr2 & Hf2 & Ha2); [by apply Ha1|].
  exists h2. split_and!; [|done| |].
  - unfold move_assign.
    erewrite run_bind; [|exact Hc1].
    erewrite run_bind; [|by apply empty_ring].
    rewrite bool_decide_eq_true_2 by done. simpl. by rewrite run_bind_ret.
  - intros x ?. rewrite Hf2 by done. by apply Hf1.
  - intros x. by rewrite Ha2, Ha1.
Qed.

(** Move construction. *)
Lemma move_ctor_ring h this other L :
  ring h other L → this ∉ other :: L →
  ∃ h', move_ctor this other h = Some (tt, h')
    ∧ ring h' this L
    ∧ ring h' other []
    ∧ (∀ x, x ≠ this → x ∉ other :: L → h' !! x = h !! x)
    ∧ (∀ x, alloc h' x ↔ x = this ∨ alloc h x).
Proof.
  intros Hr Ht.
  set (h0 := <[this := Node this this]> h).
  assert (∀ x, x ≠ this → h0 !! x = h !! x) as Hf0.
  { intros x ?. unfold h0. by rewrite lookup_insert_ne. }
  assert (alloc h0 this) as At.
  { unfold alloc, h0. rewrite lookup_insert_eq. by eexists. }
  assert (ring h0 other L) as Hr0.
  { apply (ring_frame h); [done|]. intros x Hx. apply Hf0. set_solver. }
  destruct (move_assign_ring h0 this other L Hr0 At Ht)
    as (h' & Hrun & Hr1 & Hr2 & Hf & Hal).
  exists h'. split_and!; [|done|done| |].
  - unfold move_ctor, list_element_ctor.
    erewrite run_bind; [|reflexivity]. done.
  - intros x ??. rewrite Hf by done. by apply Hf0.
  - intros x. rewrite Hal. unfold alloc, h0. rewrite lookup_insert.
    case_decide; subst.
    + split; [by left|by eexists].
    + split; [by right|]. by intros [|].
Qed.

(** A ring cut around a non-empty range [f :: R]. *)
Lemma ring_split_range h s A f R B :
  ring h s (A ++ f :: R ++ B) ↔
  NoDup (s :: A ++ f :: R ++ B)
  ∧ path h s A
  ∧ adj h (final s A) f
  ∧ path h f R
  ∧ adj h (final f R) (hd s B)
  ∧ path h (hd s B) (tail (B ++ [s])).
Proof.
  unfold ring.
  rewrite <- (assoc_L (++)). simpl. rewrite <- (assoc_L (++)).
  rewrite (snoc_hd_tl B s), !path_app_cons. done.
Qed.

(** [splice] of a range of one list into another list. *)
Lemma splice_two_rings h this other s1 s2 A R B C D :
  ring h s1 (A ++ R ++ B) → ring h s2 (C ++ D) →
  (∀ x, x ∈ s1 :: A ++ R ++ B → x ∉ s2 :: C ++ D) →
  ∃ h', splice this (hd s2 D) other (hd (hd s1 B) R) (hd s1 B) h = Some (tt, h')
    ∧ ring h' s1 (A ++ B)
    ∧ ring h' s2 (C ++ R ++ D)
    ∧ (∀ x, x ∉ s1 :: A ++ R ++ B → x ∉ s2 :: C ++ D → h' !! x = h !! x)
    ∧ (∀ x, alloc h' x ↔ alloc h x).
Proof.
  intros Hr1 Hr2 Hdisj. destruct R as [|f R]; simpl in *.
  { exists h. by rewrite splice_empty_range. }
  pose proof Hr1 as (Hnd1 & HA & Hpf & HR & Hsl & HB)%ring_split_range.
  pose proof Hr2 as (Hnd2 & HC & Hq & HD)%ring_split.
  destruct (splice_between h this (hd s2 D) other f (hd s1 B)
              (final s1 A) (final f R) (final s2 C))
    as (h' & Hrun & H1 & H2 & H3 & Hfr & Hlk & Hal);
    [done|done|done|clear -Hnd1 Hnd2 Hdisj; mem_solver..|].
  exists h'. split; [done|].
  split_and!; [| |intros x ??; apply Hlk; clear -H H0; mem_solver|done].
  - apply ring_split. split_and!; [clear -Hnd1; mem_solver| |done|].
    + apply (path_frame_adj h); [done|]. intros x y Hx Hy Hxy.
      apply Hfr; [done|..]; keep_srcs Hx; mem_solver.
    + apply (path_frame_adj h); [done|]. intros x y Hx Hy Hxy.
      apply Hfr; [done|..]; keep_srcs Hx; mem_solver.
  - apply ring_split_range.
    split_and!; [clear -Hnd1 Hnd2 Hdisj; mem_solver| |done| |done|].
    + apply (path_frame_adj h); [done|]. intros x y Hx Hy Hxy.
      apply Hfr; [done|..]; keep_srcs Hx; mem_solver.
    + apply (path_frame_adj h); [done|]. intros x y Hx Hy Hxy.
      apply Hfr; [done|..]; keep_srcs Hx; mem_solver.
    + apply (path_frame_adj h); [done|]. intros x y Hx Hy Hxy.
      apply Hfr; [done|..]; keep_srcs Hx; mem_solver.
Qed.

Lemma path_cut h a X Y s :
  path h a ((X ++ Y) ++ [s]) ↔
  path h a X ∧ adj h (final a X) (hd s Y) ∧ path h (hd s Y) (tail (Y ++ [s])).
Proof.
  rewrite <- (assoc_L (++)), (snoc_hd_tl Y s), path_app_cons.
  by rewrite <- (snoc_hd_tl Y s).
Qed.

(** [splice] within one list, to a position after the range. *)
Lemma splice_ring_after h this other s A R B1 B2 :
  ring h s (A ++ R ++ B1 ++ B2) →
  ∃ h', splice this (hd s B2) other (hd (hd s (B1 ++ B2)) R) (hd s (B1 ++ B2)) h
        = Some (tt, h')
    ∧ ring h' s (A ++ B1 ++ R ++ B2)
    ∧ (∀ x, x ∉ s :: A ++ R ++ B1 ++ B2 → h' !! x = h !! x)
    ∧ (∀ x, alloc h' x ↔ alloc h x).
Proof.
  intros Hr. destruct R as [|f R]; simpl in *.
  { exists h. by rewrite splice_empty_range. }
  destruct B1 as [|l B1]; simpl in *.
  { exists h. split_and!; [|done..].
    apply ring_split_range in Hr as (Hnd & _ & Hpf & _ & Hsl & _).
    eapply splice_at_last; [done..|]. clear -Hnd. mem_solver. }
  pose proof Hr as (Hnd & HA & Hpf & HR & Hsl & HB)%ring_split_range.
  simpl in Hsl, HB. apply path_cut in HB as (HB1 & Hq & HB2).
  destruct (splice_between h this (hd s B2) other f l
              (final s A) (final f R) (final l B1))
    as (h' & Hrun & H1 & H2 & H3 & Hfr & Hlk & Hal);
    [done|done|done|clear -Hnd; mem_solver..|].
  exists h'. split; [done|].
  split_and!; [|intros x ?; apply Hlk; clear -H; mem_solver|done].
  apply ring_split_range. simpl.
  split_and!; [clear -Hnd; mem_solver| |done| |done|].
  - apply (path_frame_adj h); [done|]. intros x y Hx Hy Hxy.
    apply Hfr; [done|..]; keep_srcs Hx; mem_solver.
  - apply (path_frame_adj h); [done|]. intros x y Hx Hy Hxy.
    apply Hfr; [done|..]; keep_srcs Hx; mem_solver.
  - apply path_cut. split_and!; [|done|].
    + apply (path_frame_adj h); [done|]. intros x y Hx Hy Hxy.
      apply Hfr; [done|..]; keep_srcs Hx; mem_solver.
    + apply (path_frame_adj h); [done|]. intros x y Hx Hy Hxy.
      apply Hfr; [done|..]; keep_srcs Hx; mem_solver.
Qed.

(** [splice] within one list, to a position before the range. *)
Lemma splice_ring_before h this other s A1 a A2 R B :
  ring h s (A1 ++ a :: A2 ++ R ++ B) →
  ∃ h', splice this a other (hd (hd s B) R) (hd s B) h = Some (tt, h')
    ∧ ring h' s (A1 ++ R ++ a :: A2 ++ B)
    ∧ (∀ x, x ∉ s :: A1 ++ a :: A2 ++ R ++ B → h' !! x = h !! x)
    ∧ (∀ x, alloc h' x ↔ alloc h x).
Proof.
  intros Hr. destruct R as [|f R]; simpl in *.
  { exists h. by rewrite splice_empty_range. }
  pose proof Hr as (Hnd & HA1 & Hq & HA2 & Hpf & HB)%ring_split_range.
  simpl in Hpf, HB. apply path_cut in HB as (HR & Hsl & HB).
  destruct (splice_between h this a other f (hd s B)
              (final a A2) (final f R) (final s A1))
    as (h' & Hrun & H1 & H2 & H3 & Hfr & Hlk & Hal);
    [done|done|done|clear -Hnd; mem_solver..|].
  exists h'. split; [done|].
  split_and!; [|intros x ?; apply Hlk; clear -H; mem_solver|done].
  apply ring_split_range. simpl.
  split_and!; [clear -Hnd; mem_solver| |done| |done|].
  - apply (path_frame_adj h); [done|]. intros x y Hx Hy Hxy.
    apply Hfr; [done|..]; keep_srcs Hx; mem_solver.
  - apply (path_frame_adj h); [done|]. intros x y Hx Hy Hxy.
    apply Hfr; [done|..]; keep_srcs Hx; mem_solver.
  - apply path_cut. split_and!; [|done|].
    + apply (path_frame_adj h); [done|]. intros x y Hx Hy Hxy.
      apply Hfr; [done|..]; keep_srcs Hx; mem_solver.
    + apply (path_frame_adj h); [done|]. intros x y Hx Hy Hxy.
      apply Hfr; [done|..]; keep_srcs Hx; mem_solver.
Qed.

End rings.

(** ** The invariant of a system of lists *)

Section invariant.
Implicit Types (h : heap) (w : world) (s o x : loc) (L : list loc).

Lemma inv_disjoint h w s1 s2 L1 L2 x :
  Inv h w → s1 ≠ s2 →
  lists w !! s1 = Some L1 → lists w !! s2 = Some L2 →
  x ∈ s1 :: L1 → x ∉ s2 :: L2.
Proof.
  intros (I1 & I2 & I3 & I4 & I5) Hne H1 H2 Hx1 Hx2.
  apply elem_of_cons in Hx1 as [->|Hx1]; apply elem_of_cons in Hx2 as [Heq|Hx2].
  - done.
  - apply (I3 s1); [by eexists|]. by apply (I2 s2 L2).
  - subst x. apply (I3 s2); [by eexists|]. by apply (I2 s1 L1).
  - by eapply (I5 s1 s2).
Qed.

Lemma inv_free_outside h w s L x :
  Inv h w → free w x → lists w !! s = Some L → x ∉ s :: L.
Proof.
  intros (I1 & I2 & I3 & I4 & I5) [He Hf] Hs Hx.
  apply elem_of_cons in Hx as [->|Hx].
  - apply (I3 s); [by eexists|done].
  - by eapply Hf.
Qed.

Lemma inv_fresh_outside h w s L a :
  Inv h w → fresh w a → lists w !! s = Some L → a ∉ s :: L.
Proof.
  intros (I1 & I2 & I3 & I4 & I5) [He Hf] Hs Hx.
  apply elem_of_cons in Hx as [->|Hx].
  - congruence.
  - apply He. by eapply I2.
Qed.

(** One list changes. *)
Lemma inv_set1 h h' w s Lold Lnew :
  Inv h w → lists w !! s = Some Lold → ring h' s Lnew →
  (∀ x, x ∈ Lnew → x ∈ Lold ∨ free w x) →
  (∀ x, x ∉ s :: Lold → x ∉ Lnew → h' !! x = h !! x) →
  (∀ x, alloc h x → alloc h' x) →
  Inv h' (set_list s Lnew w).
Proof.
  intros HI Hs Hr Hnew Hfr Hal.
  pose proof HI as (I1 & I2 & I3 & I4 & I5).
  assert (∀ s' L' x, s' ≠ s → lists w !! s' = Some L' → x ∈ Lnew → x ∉ s' :: L')
    as Hout.
  { intros s' L' x Hne Hs' Hx. destruct (Hnew x Hx) as [Hold|Hfree].
    - intros Hx'. eapply (inv_disjoint h w s' s); [done..|]. by right.
    - by eapply inv_free_outside. }
  split_and!; simpl.
  - intros s' L'. rewrite lookup_insert. case_decide as Hd.
    + subst s'. by intros [= <-].
    + intros Hs'. apply (ring_frame h); [by apply I1|]. intros x Hx.
      apply Hfr.
      * by eapply (inv_disjoint h w s' s).
      * intros Hx'. by eapply Hout.
  - intros s' L' x. rewrite lookup_insert. case_decide as Hd.
    + intros [= <-] Hx. destruct (Hnew x Hx) as [Hold|[? _]]; [by eapply I2|done].
    + apply I2.
  - intros s'. rewrite lookup_insert. case_decide as Hd.
    + subst s'. intros _. apply I3. by eexists.
    + apply I3.
  - intros x Hx. by apply Hal, I4.
  - intros s1 s2 L1 L2 x Hne. rewrite !lookup_insert.
    case_decide as Hd1; case_decide as Hd2; subst.
    + done.
    + intros [= <-] H2 Hx1 Hx2. eapply (Hout s2 L2 x); [done..|]. by right.
    + intros H1 [= <-] Hx1 Hx2. eapply (Hout s1 L1 x); [done..|]. by right.
    + by apply I5.
Qed.

(** Two lists exchange elements. *)
Lemma inv_set2 h h' w s1 s2 L1 L2 L1' L2' :
  Inv h w → s1 ≠ s2 →
  lists w !! s1 = Some L1 → lists w !! s2 = Some L2 →
  ring h' s1 L1' → ring h' s2 L2' →
  (∀ x, x ∈ L1' ++ L2' → x ∈ L1 ++ L2) →
  (∀ x, x ∈ L1' → x ∉ L2') →
  (∀ x, x ∉ s1 :: L1 → x ∉ s2 :: L2 → h' !! x = h !! x) →
  (∀ x, alloc h x → alloc h' x) →
  Inv h' (set_list s2 L2' (set_list s1 L1' w)).
Proof.
  intros HI Hne H1 H2 Hr1 Hr2 Hsub Hdis Hfr Hal.
  pose proof HI as (I1 & I2 & I3 & I4 & I5).
  assert (∀ s' L' x, s' ≠ s1 → s' ≠ s2 → lists w !! s' = Some L' →
            x ∈ L1' ++ L2' → x ∉ s' :: L') as Hout.
  { intros s' L' x Hn1 Hn2 Hs' Hx Hx'.
    apply Hsub, elem_of_app in Hx as [Hx|Hx].
    - eapply (inv_disjoint h w s' s1); [done..|]. by right.
    - eapply (inv_disjoint h w s' s2); [done..|]. by right. }
  split_and!; simpl.
  - intros s' L'. rewrite !lookup_insert.
    case_decide as Hd2; [subst; by intros [= <-]|].
    case_decide as Hd1; [subst; by intros [= <-]|].
    intros Hs'. apply (ring_frame h); [by apply I1|]. intros x Hx.
    apply Hfr; by eapply (inv_disjoint h w s').
  - assert (∀ x, x ∈ L1' ++ L2' → x ∈ elems w) as Hel.
    { intros x [Hx|Hx]%Hsub%elem_of_app;
        [by apply (I2 s1 L1)|by apply (I2 s2 L2)]. }
    intros s' L' x. rewrite !lookup_insert.
    case_decide as Hd2; [intros [= <-] ?; apply Hel, elem_of_app; by right|].
    case_decide as Hd1; [intros [= <-] ?; apply Hel, elem_of_app; by left|].
    apply I2.
  - intros s'. rewrite !lookup_insert.
    case_decide as Hd2; [subst; intros _; apply I3; by eexists|].
    case_decide as Hd1; [subst; intros _; apply I3; by eexists|].
    apply I3.
  - intros x Hx. by apply Hal, I4.
  - intros a b La Lb x Hab. rewrite !lookup_insert.
    repeat case_decide; subst; try done.
    + intros [= <-] [= <-] Hx1 Hx2. by eapply Hdis.
    + intros [= <-] Hb Hx1 Hx2.
      eapply (Hout b Lb x); [done..|apply elem_of_app; by right|by right].
    + intros [= <-] [= <-] Hx1 Hx2. by eapply Hdis.
    + intros [= <-] Hb Hx1 Hx2.
      eapply (Hout b Lb x); [done..|apply elem_of_app; by left|by right].
    + intros Ha [= <-] Hx1 Hx2.
      eapply (Hout a La x); [done..|apply elem_of_app; by right|by right].
    + intros Ha [= <-] Hx1 Hx2.
      eapply (Hout a La x); [done..|apply elem_of_app; by left|by right].
    + by apply I5.
Qed.

(** A list comes into existence. *)
Lemma inv_new_list h h' w s :
  Inv h w → fresh w s → ring h' s [] →
  (∀ x, x ≠ s → h' !! x = h !! x) →
  (∀ x, alloc h x → alloc h' x) →
  Inv h' (set_list s [] w).
Proof.
  intros HI Hfresh Hr Hfr Hal.
  pose proof HI as (I1 & I2 & I3 & I4 & I5). pose proof Hfresh as [Hf1 Hf2].
  split_and!; simpl.
  - intros s' L'. rewrite lookup_insert. case_decide as Hd.
    + subst s'. by intros [= <-].
    + intros Hs'. apply (ring_frame h); [by apply I1|]. intros x Hx.
      apply Hfr. intros ->. by eapply inv_fresh_outside.
  - intros s' L' x. rewrite lookup_insert. case_decide as Hd.
    + intros [= <-] Hx. by apply elem_of_nil in Hx.
    + apply I2.
  - intros s'. rewrite lookup_insert. case_decide as Hd; [by subst|apply I3].
  - intros x Hx. by apply Hal, I4.
  - intros s1 s2 L1 L2 x Hne. rewrite !lookup_insert.
    repeat case_decide; subst; try done.
    + intros [= <-] _ Hx. by apply elem_of_nil in Hx.
    + intros _ [= <-] _ Hx. by apply elem_of_nil in Hx.
    + by apply I5.
Qed.

(** An element comes into existence. *)
Lemma inv_new_elem h w x :
  Inv h w → fresh w x →
  Inv (<[x := Node x x]> h) (add_elem x w).
Proof.
  intros HI Hfresh.
  pose proof HI as (I1 & I2 & I3 & I4 & I5). pose proof Hfresh as [Hf1 Hf2].
  split_and!; simpl.
  - intros s L Hs. apply (ring_frame h); [by apply I1|]. intros y Hy.
    apply lookup_insert_ne. intros ->. by eapply inv_fresh_outside.
  - intros s L y Hs Hy. apply elem_of_union. right. by eapply I2.
  - intros s Hs [->%elem_of_singleton|Hin]%elem_of_union.
    + rewrite Hf2 in Hs. by destruct Hs.
    + by apply (I3 s).
  - intros y [->%elem_of_singleton|Hin]%elem_of_union; unfold alloc.
    + rewrite lookup_insert_eq. by eexists.
    + rewrite lookup_insert. case_decide; [by eexists|by apply I4].
  - done.
Qed.

Lemma set_list_shadow s o L w :
  set_list s L (set_list o [] (set_list s [] w)) = set_list s L (set_list o [] w).
Proof.
  unfold set_list. simpl. f_equal.
  destruct (decide (s = o)) as [->|Hne].
  - by rewrite !insert_insert_eq.
  - rewrite (insert_insert_ne _ o s) by done. by rewrite insert_insert_eq.
Qed.

(** Every valid call returns, and keeps the invariant. *)
Lemma valid_preserves h w (c : op) w' :
  Inv h w → valid w c w' →
  ∃ h', run_op c h = Some (tt, h') ∧ Inv h' w'.
Proof.
  intros HI Hv. pose proof HI as (I1 & I2 & I3 & I4 & I5).
  destruct Hv; simpl.
  - (* NewElement *)
    eexists. split; [reflexivity|]. by apply inv_new_elem.
  - (* Construct *)
    destruct (list_ctor_ring h s) as (h' & Hrun & Hr & Hfr & Hal).
    exists h'. split; [done|].
    apply (inv_new_list h); [done..|]. intros x Hx. apply Hal. by right.
  - (* MoveConstruct *)
    set (h0 := <[s := Node s s]> h).
    assert (Inv h0 (set_list s [] w)) as HI0.
    { apply (inv_new_list h); [done|done| | |].
      - apply ring_nil. unfold unlinked, h0. by rewrite lookup_insert_eq.
      - intros x ?. unfold h0. by rewrite lookup_insert_ne.
      - intros x Hx. unfold alloc, h0. rewrite lookup_insert.
        case_decide; [by eexists|done]. }
    assert (s ≠ o) as Hso by (intros ->; destruct H as [_ ?]; congruence).
    destruct (move_assign_ring h0 s o L) as (h' & Hrun & Hr1 & Hr2 & Hfr & Hal).
    { apply (ring_frame h); [by apply I1|]. intros x Hx. unfold h0.
      apply lookup_insert_ne. intros ->.
      by apply (inv_fresh_outside h w o L x). }
    { unfold alloc, h0. rewrite lookup_insert_eq. by eexists. }
    { by apply (inv_fresh_outside h w o L s). }
    exists h'. split.
    { unfold move_ctor, list_element_ctor. erewrite run_bind; [|reflexivity]. done. }
    rewrite <- set_list_shadow.
    apply (inv_set2 h0 h' _ o s L [] [] L); simpl; try done.
    + by rewrite lookup_insert_ne.
    + by rewrite lookup_insert_eq.
    + intros x Hx. rewrite app_nil_r. done.
    + intros x Hx. by apply elem_of_nil in Hx.
    + intros x Hx1 Hx2. apply Hfr; [|done]. intros ->. apply Hx2. by left.
    + intros x. apply Hal.
  - (* MoveAssign *)
    destruct (move_assign_ring h s o Lo) as (h' & Hrun & Hr1 & Hr2 & Hfr & Hal).
    { by apply I1. }
    { eapply ring_alloc; [by apply (I1 s)|by left]. }
    { eapply (inv_disjoint h w s o); [done..|by left]. }
    exists h'. split; [done|].
    apply (inv_set2 h h' _ o s Lo Ls [] Lo); simpl; try done.
    + intros x Hx. apply elem_of_app. by left.
    + intros x Hx. by apply elem_of_nil in Hx.
    + intros x Hx1 Hx2. apply Hfr; [|done]. intros ->. apply Hx2. by left.
    + intros x. apply Hal.
  - (* MoveAssign, to itself *)
    destruct (move_assign_self h s) as (h' & Hrun & Hr & Hfr & Hal).
    { eapply ring_alloc; [by apply (I1 s)|by left]. }
    exists h'. split; [done|].
    apply (inv_set1 h h' _ s L []); try done.
    + intros x Hx. by apply elem_of_nil in Hx.
    + intros x Hx _. apply Hfr. intros ->. apply Hx. by left.
    + intros x. apply Hal.
  - (* Clear *)
    destruct (clear_ring h s) as (h' & Hrun & Hr & Hfr & Hal).
    { eapply ring_alloc; [by apply (I1 s)|by left]. }
    exists h'. split; [done|].
    apply (inv_set1 h h' _ s L []); try done.
    + intros x Hx. by apply elem_of_nil in Hx.
    + intros x Hx _. apply Hfr. intros ->. apply Hx. by left.
    + intros x. apply Hal.
  - (* PushBack *)
    destruct (push_back_ring h s L x) as (h' & Hrun & Hr & Hfr & Hal).
    { by apply I1. } { apply I4. by destruct H0. } { by eapply inv_free_outside. }
    exists h'. split; [done|].
    apply (inv_set1 h h' _ s L (L ++ [x])); try done.
    + intros y [Hy| ->%list_elem_of_singleton]%elem_of_app; [by left|by right].
    + intros y Hy1 Hy2. apply Hfr; [|done]. intros ->. apply Hy2.
      apply elem_of_app. right. by left.
    + intros y. apply Hal.
  - (* PopBack *)
    destruct (pop_back_ring h s L x) as (h' & Hrun & Hr & _ & Hfr & Hal).
    { by apply I1. }
    exists h'. split; [done|].
    apply (inv_set1 h h' _ s (L ++ [x]) L); try done.
    + intros y Hy. left. apply elem_of_app. by left.
    + intros y Hy _. by apply Hfr.
    + intros y. apply Hal.
  - (* PushFront *)
    destruct (push_front_ring h s L x) as (h' & Hrun & Hr & Hfr & Hal).
    { by apply I1. } { apply I4. by destruct H0. } { by eapply inv_free_outside. }
    exists h'. split; [done|].
    apply (inv_set1 h h' _ s L (x :: L)); try done.
    + intros y [->|Hy]%elem_of_cons; [by right|by left].
    + intros y Hy1 Hy2. apply Hfr; [|done]. intros ->. apply Hy2. by left.
    + intros y. apply Hal.
  - (* PopFront *)
    destruct (pop_front_ring h s L x) as (h' & Hrun & Hr & _ & Hfr & Hal).
    { by apply I1. }
    exists h'. split; [done|].
    apply (inv_set1 h h' _ s (x :: L) L); try done.
    + intros y Hy. left. by right.
    + intros y Hy _. by apply Hfr.
    + intros y. apply Hal.
  - (* Insert *)
    destruct (insert_ring h s X Y x) as (h' & Hrun & Hr & Hfr & Hal).
    { by apply I1. } { apply I4. by destruct H0. } { by eapply inv_free_outside. }
    exists h'. split; [erewrite run_bind; [|exact Hrun]; done|].
    apply (inv_set1 h h' _ s (X ++ Y) (X ++ x :: Y)); try done.
    + intros y Hy. destruct (decide (y = x)) as [->|Hne]; [by right|left].
      clear -Hy Hne. set_solver.
    + intros y Hy1 Hy2. apply Hfr; [|done]. intros ->. apply Hy2.
      clear. set_solver.
    + intros y. apply Hal.
  - (* Erase *)
    destruct (erase_ring h s X x Y) as (h' & Hrun & Hr & _ & Hfr & Hal).
    { by apply I1. }
    exists h'. split; [erewrite run_bind; [|exact Hrun]; done|].
    apply (inv_set1 h h' _ s (X ++ x :: Y) (X ++ Y)); try done.
    + intros y Hy. left. clear -Hy. set_solver.
    + intros y Hy _. by apply Hfr.
    + intros y. apply Hal.
  - (* Splice, from another list *)
    pose proof (I1 _ _ H0) as Hro. pose proof (I1 _ _ H1) as Hrs.
    destruct (splice_two_rings h s o o s A R B C D)
      as (h' & Hrun & Hr1 & Hr2 & Hfr & Hal); [done|done| |].
    { intros x. by apply (inv_disjoint h w o s). }
    exists h'. split; [done|].
    apply (inv_set2 h h' _ o s (A ++ R ++ B) (C ++ D) (A ++ B) (C ++ R ++ D));
      try done.
    + intros x Hx. clear -Hx. set_solver.
    + destruct Hro as [Hnd1 _], Hrs as [Hnd2 _].
      assert (∀ x, x ∈ o :: A ++ R ++ B → x ∉ s :: C ++ D) as Hdisj.
      { intros x. apply (inv_disjoint h w o s); done. }
      clear -Hnd1 Hnd2 Hdisj. mem_solver.
    + intros x. apply Hal.
  - (* Splice, to a later position of the same list *)
    destruct (splice_ring_after h s s s A R B1 B2) as (h' & Hrun & Hr & Hfr & Hal).
    { by apply I1. }
    exists h'. split; [done|].
    apply (inv_set1 h h' _ s (A ++ R ++ B1 ++ B2) (A ++ B1 ++ R ++ B2)); try done.
    + intros y Hy. left. clear -Hy. set_solver.
    + intros y Hy _. by apply Hfr.
    + intros y. apply Hal.
  - (* Splice, to an earlier position of the same list *)
    destruct (splice_ring_before h s s s A1 a A2 R B) as (h' & Hrun & Hr & Hfr & Hal).
    { by apply I1. }
    exists h'. split; [done|].
    apply (inv_set1 h h' _ s (A1 ++ a :: A2 ++ R ++ B) (A1 ++ R ++ a :: A2 ++ B));
      try done.
    + intros y Hy. left. clear -Hy. set_solver.
    + intros y Hy _. by apply Hfr.
    + intros y. apply Hal.
Qed.

Lemma inv_world0 : Inv ∅ world0.
Proof.
  split_and!; simpl; try done.
Qed.

Lemma valid_seq_preserves h w os w' :
  Inv h w → valid_seq w os w' →
  ∃ h', run_ops os h = Some (tt, h') ∧ Inv h' w'.
Proof.
  intros HI Hv. revert h HI. induction Hv as [w|w c w' os w'' Hc Hos IH]; intros h HI.
  - by exists h.
  - destruct (valid_preserves h w c w' HI Hc) as (h1 & Hrun1 & HI1).
    destruct (IH h1 HI1) as (h2 & Hrun2 & HI2).
    exists h2. split; [|done]. simpl. erewrite run_bind; [|exact Hrun1]. done.
Qed.

(** In a ring, every node agrees with both its neighbours. *)
Lemma ring_node_consistent h s L n :
  ring h s L → n ∈ s :: L →
  next_prev n h = Some (n, h) ∧ prev_next n h = Some (n, h).
Proof.
  intros Hr Hn.
  destruct (ring_next h s L n Hr Hn) as (y & _ & [Hy1 Hy2]).
  destruct (ring_prev h s L n Hr Hn) as (z & _ & [Hz1 Hz2]).
  unfold next_prev, prev_next. split.
  - erewrite run_bind; [|by apply run_get_next]. by apply run_get_prev.
  - erewrite run_bind; [|by apply run_get_prev]. by apply run_get_next.
Qed.

(** Going on from a node of a ring never leaves the ring. *)
Lemma advance_stays h s L k m :
  ring h s L → m ∈ s :: L →
  ∃ n, advance k m h = Some (n, h) ∧ n ∈ s :: L.
Proof.
  intros Hr. revert m. induction k as [|k IH]; intros m Hm; simpl.
  - by exists m.
  - destruct (ring_next h s L m Hr Hm) as (y & Hy & [Hy1 _]).
    destruct (IH y Hy) as (n & Hrun & Hn).
    exists n. split; [|done].
    unfold Iter.incr. erewrite run_bind; [|by apply run_get_next]. done.
Qed.

Lemma advance_path h a (l : list loc) k n :
  path h a l → l !! k = Some n → advance (S k) a h = Some (n, h).
Proof.
  revert a k. induction l as [|b l IH]; intros a k Hp Hk; [done|].
  destruct Hp as [[Hab _] Hp]. simpl. unfold Iter.incr.
  erewrite run_bind; [|by apply run_get_next].
  destruct k as [|k]; simpl in Hk.
  - by injection Hk as ->.
  - by apply IH.
Qed.

(** One lap around a ring leads back to the sentinel. *)
Lemma advance_lap h s L : ring h s L → advance (S (length L)) s h = Some (s, h).
Proof.
  intros [_ Hp]. apply (advance_path h s (L ++ [s])); [done|].
  by apply list_lookup_middle.
Qed.

End invariant.

(** * The properties of the specification *)

Section claims.
Implicit Types (h : heap) (s e x y a b c pos : loc) (L X Y : list loc).

Lemma advance_empty h s k : ring h s [] → advance k s h = Some (s, h).
Proof.
  intros Hr. pose proof (ring_rd_next_sentinel _ _ _ Hr) as Hn. simpl in Hn.
  induction k as [|k IH]; simpl; [done|].
  unfold Iter.incr. erewrite run_bind; [|by apply run_get_next]. done.
Qed.

Lemma retreat_empty h s k : ring h s [] → retreat k s h = Some (s, h).
Proof.
  intros Hr. pose proof (ring_rd_prev_sentinel _ _ _ Hr) as Hp. simpl in Hp.
  induction k as [|k IH]; simpl; [done|].
  unfold Iter.decr. erewrite run_bind; [|by apply run_get_prev]. done.
Qed.

(** Every valid position of a list is the head of a suffix of it, or
    [end()]. *)
Lemma position_split s L pos :
  pos ∈ L ++ [s] → ∃ X Y, L = X ++ Y ∧ pos = hd s Y.
Proof.
  intros [Hin| ->%list_elem_of_singleton]%elem_of_app.
  - apply list_elem_of_split in Hin as (X & Y & ->).
    by exists X, (pos :: Y).
  - exists L, []. by rewrite app_nil_r.
Qed.

(** C8 (unlink idempotence): on a node in the default, self-referencing
    state [unlink()] changes nothing, so the node stays self-referencing;
    and on any heap, [unlink()] twice does what [unlink()] once does. *)
Theorem unlink_idempotent h a :
  (unlinked h a → unlink a h = Some (tt, h))
  ∧ (unlink a ;; unlink a) h = unlink a h.
Proof.
  split; [apply unlink_unlinked|].
  destruct (unlink a h) as [[[] h']|] eqn:E.
  - erewrite run_bind; [|exact E].
    apply unlink_unlinked. by eapply unlink_leaves_unlinked.
  - by apply run_bind_fail.
Qed.

(** C4 (as amended): on an empty list [pop_back()] and [pop_front()] do
    call [unlink()] on the sentinel itself, but on a self-referencing node
    that changes nothing: the heap is the same and the list is still a
    well-formed empty ring. *)
Theorem pop_on_empty_harmless h s :
  ring h s [] →
  pop_back s h = unlink s h
  ∧ pop_front s h = unlink s h
  ∧ pop_back s h = Some (tt, h)
  ∧ pop_front s h = Some (tt, h)
  ∧ empty s h = Some (true, h).
Proof.
  intros Hr.
  pose proof (ring_rd_prev_sentinel _ _ _ Hr) as Hp.
  pose proof (ring_rd_next_sentinel _ _ _ Hr) as Hn. simpl in Hp, Hn.
  assert (pop_back s h = unlink s h) as Hb.
  { unfold pop_back. erewrite run_bind; [|by apply run_get_prev]. done. }
  assert (pop_front s h = unlink s h) as Hf.
  { unfold pop_front. erewrite run_bind; [|by apply run_get_next]. done. }
  split_and!; [done|done| | |].
  - rewrite Hb. apply unlink_unlinked. by apply ring_nil.
  - rewrite Hf. apply unlink_unlinked. by apply ring_nil.
  - by rewrite (empty_ring h s []).
Qed.

(** C5 (empty round trip): a freshly constructed list is empty; after
    [push_back(x)] it is not; after [pop_back()] it is empty again and [x]
    is unlinked, its [prev] and [next] both pointing to [x]. *)
Theorem empty_round_trip h s x :
  alloc h x → x ≠ s →
  ∃ h0 h1 h2,
    list_ctor s h = Some (tt, h0)
    ∧ empty s h0 = Some (true, h0)
    ∧ push_back s x h0 = Some (tt, h1)
    ∧ empty s h1 = Some (false, h1)
    ∧ pop_back s h1 = Some (tt, h2)
    ∧ empty s h2 = Some (true, h2)
    ∧ h2 !! x = Some (Node x x).
Proof.
  intros Ax Hxs.
  destruct (list_ctor_ring h s) as (h0 & Hc & Hr0 & _ & Ha0).
  destruct (push_back_ring h0 s [] x) as (h1 & Hpu & Hr1 & _ & _);
    [done|apply Ha0; by right|mem_solver|].
  destruct (pop_back_ring h1 s [] x) as (h2 & Hpo & Hr2 & Hu & _ & _); [done|].
  exists h0, h1, h2. split_and!; try done.
  - by rewrite (empty_ring h0 s []).
  - by rewrite (empty_ring h1 s [x]).
  - by rewrite (empty_ring h2 s []).
Qed.

(** C6 (order preservation): [push_back(a); push_back(b); push_back(c)] on
    an empty list gives the iteration order [a, b, c] from [begin()] to
    [end()], with [front() == a] and [back() == c]. *)
Theorem push_back_order h s a b c :
  ring h s [] → alloc h a → alloc h b → alloc h c →
  NoDup [s; a; b; c] →
  ∃ h',
    (push_back s a ;; push_back s b ;; push_back s c) h = Some (tt, h')
    ∧ to_list 4 s h' = Some (Some [a; b; c], h')
    ∧ begin_ s h' = Some (a, h')
    ∧ Iter.incr a h' = Some (b, h')
    ∧ Iter.incr b h' = Some (c, h')
    ∧ Iter.incr c h' = end_ s h'
    ∧ front s h' = Some (a, h')
    ∧ back s h' = Some (c, h').
Proof.
  intros Hr Aa Ab Ac Hnd.
  destruct (push_back_ring h s [] a) as (h1 & Hp1 & Hr1 & _ & Ha1);
    [done|done|clear -Hnd; mem_solver|].
  destruct (push_back_ring h1 s [a] b) as (h2 & Hp2 & Hr2 & _ & Ha2);
    [done|by apply Ha1|clear -Hnd; mem_solver|].
  destruct (push_back_ring h2 s [a; b] c) as (h3 & Hp3 & Hr3 & _ & Ha3);
    [done|by apply Ha2, Ha1|clear -Hnd; mem_solver|].
  simpl in *. exists h3.
  pose proof Hr3 as [_ (Hsa & Hab & Hbc & Hcs & _)].
  split_and!.
  - erewrite run_bind; [|exact Hp1]. erewrite run_bind; [|exact Hp2]. done.
  - apply to_list_ring; [done|simpl; lia].
  - apply run_get_next, Hsa.
  - apply run_get_next, Hab.
  - apply run_get_next, Hbc.
  - unfold end_. rewrite run_ret. apply run_get_next, Hcs.
  - by apply (front_ring h3 s a [b; c]).
  - by apply (back_ring h3 s [a; b] c).
Qed.

(** C7 (insert and erase): [insert(pos, elem)] links [elem] immediately
    before [pos] (at the end for [pos == end()]) and returns an iterator to
    it; [erase(pos)], for [pos != end()], unlinks the element at [pos] and
    returns an iterator to the one that followed it ([end()] if none did);
    the other elements keep their order. *)
Theorem insert_erase_semantics h s L :
  ring h s L →
  (∀ pos e, pos ∈ L ++ [s] → alloc h e → e ∉ s :: L →
     ∃ X Y h', L = X ++ Y ∧ pos = hd s Y
       ∧ insert s pos e h = Some (e, h')
       ∧ ring h' s (X ++ e :: Y)
       ∧ to_list (S (S (length L))) s h' = Some (Some (X ++ e :: Y), h'))
  ∧ (∀ pos, pos ∈ L →
     ∃ X Y h', L = X ++ pos :: Y
       ∧ erase s pos h = Some (hd s Y, h')
       ∧ ring h' s (X ++ Y)
       ∧ h' !! pos = Some (Node pos pos)
       ∧ to_list (length L) s h' = Some (Some (X ++ Y), h')).
Proof.
  intros Hr. split.
  - intros pos e (X & Y & -> & ->)%position_split Ae He.
    destruct (insert_ring h s X Y e Hr Ae He) as (h' & Hrun & Hr' & _).
    exists X, Y, h'. split_and!; try done.
    apply to_list_ring; [done|]. rewrite !length_app. simpl. lia.
  - intros pos (X & Y & ->)%list_elem_of_split.
    destruct (erase_ring h s X pos Y Hr) as (h' & Hrun & Hr' & Hu & _).
    exists X, Y, h'. split_and!; try done.
    apply to_list_ring; [done|]. rewrite !length_app. simpl. lia.
Qed.

(** C3 (move transfer): move-constructing [list2] from [list1] leaves in
    [list2] exactly the former elements of [list1], the same nodes in the
    same order, and leaves [list1] empty; the only node that comes into
    existence is the sentinel of [list2]. *)
Theorem move_transfer h list1 list2 L :
  ring h list1 L → list2 ∉ list1 :: L →
  ∃ h',
    move_ctor list2 list1 h = Some (tt, h')
    ∧ ring h' list2 L
    ∧ to_list (S (length L)) list2 h' = Some (Some L, h')
    ∧ ring h' list1 []
    ∧ empty list1 h' = Some (true, h')
    ∧ (∀ x, alloc h' x ↔ x = list2 ∨ alloc h x).
Proof.
  intros Hr Hfresh.
  destruct (move_ctor_ring h list2 list1 L Hr Hfresh)
    as (h' & Hrun & Hr2 & Hr1 & _ & Hal).
  exists h'. split_and!; try done.
  - apply to_list_ring; [done|lia].
  - by rewrite (empty_ring h' list1 []).
Qed.

(** C9 (splice does not depend on its source-list argument): two calls
    that differ only in the list passed as second argument behave the same;
    the argument is neither read nor checked, so the range is taken out of
    the list [owner] that holds it whatever [other] is, a list or not. *)
Theorem splice_ignores_source_list :
  (∀ this pos other1 other2 first last h,
     splice this pos other1 first last h = splice this pos other2 first last h)
  ∧ (∀ h this other owner A R B C D,
     ring h owner (A ++ R ++ B) → ring h this (C ++ D) →
     (∀ x, x ∈ owner :: A ++ R ++ B → x ∉ this :: C ++ D) →
     ∃ h', splice this (hd this D) other (hd (hd owner B) R) (hd owner B) h
           = Some (tt, h')
       ∧ ring h' owner (A ++ B)
       ∧ ring h' this (C ++ R ++ D)).
Proof.
  split; [reflexivity|].
  intros h this other owner A R B C D H1 H2 Hd.
  destruct (splice_two_rings h this other owner this A R B C D H1 H2 Hd)
    as (h' & ? & ? & ? & _).
  by exists h'.
Qed.

(** C10 (self-move-assignment): [l = std::move(l)] leaves [l] empty, its
    sentinel self-referencing, and no former element can be reached from
    [l] in either direction. *)
Theorem self_move_assign_empties h l L :
  ring h l L →
  ∃ h',
    move_assign l l h = Some (tt, h')
    ∧ empty l h' = Some (true, h')
    ∧ h' !! l = Some (Node l l)
    ∧ to_list 1 l h' = Some (Some [], h')
    ∧ (∀ k x, x ∈ L →
         advance k l h' ≠ Some (x, h') ∧ retreat k l h' ≠ Some (x, h')).
Proof.
  intros Hr.
  destruct (move_assign_self h l) as (h' & Hrun & Hr' & _);
    [eapply ring_alloc; [done|by left]|].
  exists h'. split_and!; [done| | | |].
  - by rewrite (empty_ring h' l []).
  - by apply ring_nil.
  - apply to_list_ring; [done|simpl; lia].
  - intros k x Hx. destruct Hr as [Hnd _].
    rewrite advance_empty, retreat_empty by done.
    assert (l ≠ x) by (clear -Hnd Hx; mem_solver).
    split; congruence.
Qed.

(** C2 (splice correctness): [splice(pos, otherList, first, last)] takes
    the elements of [first, last) out of where they are and links them, in
    the same order, immediately before [pos]: from another list; within
    one list, to a position after the range or before it; an empty range
    is a no-op; and the example of the specification gives [A = [1,4]] and
    [B = [5,2,3,6]]. *)
Theorem splice_correct :
  (∀ h this other A R B C D,
     ring h other (A ++ R ++ B) → ring h this (C ++ D) →
     (∀ x, x ∈ other :: A ++ R ++ B → x ∉ this :: C ++ D) →
     ∃ h', splice this (hd this D) other (hd (hd other B) R) (hd other B) h
           = Some (tt, h')
       ∧ ring h' other (A ++ B)
       ∧ ring h' this (C ++ R ++ D))
  ∧ (∀ h this A R B1 B2,
     ring h this (A ++ R ++ B1 ++ B2) →
     ∃ h', splice this (hd this B2) this
             (hd (hd this (B1 ++ B2)) R) (hd this (B1 ++ B2)) h
           = Some (tt, h')
       ∧ ring h' this (A ++ B1 ++ R ++ B2))
  ∧ (∀ h this A1 pos A2 R B,
     ring h this (A1 ++ pos :: A2 ++ R ++ B) →
     ∃ h', splice this pos this (hd (hd this B) R) (hd this B) h
           = Some (tt, h')
       ∧ ring h' this (A1 ++ R ++ pos :: A2 ++ B))
  ∧ (∀ h this pos other first,
     splice this pos other first first h = Some (tt, h))
  ∧ match exec example_AB ∅ with
    | Some h =>
        eval (to_list 5 10) h = Some (Some [1; 2; 3; 4])
        ∧ eval (to_list 5 20) h = Some (Some [5; 6])
        ∧ match exec example_splice h with
          | Some h' =>
              eval (to_list 5 10) h' = Some (Some [1; 4])
              ∧ eval (to_list 5 20) h' = Some (Some [5; 2; 3; 6])
          | None => False
          end
    | None => False
    end.
Proof.
  split_and!.
  - intros h this other A R B C D H1 H2 Hd.
    destruct (splice_two_rings h this other other this A R B C D H1 H2 Hd)
      as (h' & ? & ? & ? & _).
    by exists h'.
  - intros h this A R B1 B2 H.
    destruct (splice_ring_after h this this this A R B1 B2 H)
      as (h' & ? & ? & _).
    by exists h'.
  - intros h this A1 pos A2 R B H.
    destruct (splice_ring_before h this this this A1 pos A2 R B H)
      as (h' & ? & ? & _).
    by exists h'.
  - intros. apply splice_empty_range.
  - vm_compute. done.
Qed.

(** C1 (ring consistency): after any sequence of valid operations, starting
    with nothing, the sequence has run to its end, and for every live list:
    every node [n] of its ring has [n.next.prev == n] and [n.prev.next == n];
    following [next] from the sentinel never leaves the ring and leads back
    to the sentinel after one lap; the ring holds the sentinel once, and no
    other node of it is the sentinel of any list; its other nodes are the
    elements of the list, in order. *)
Theorem ring_invariant (os : list op) (w : world) :
  valid_seq world0 os w →
  ∃ h, run_ops os ∅ = Some (tt, h)
    ∧ ∀ s L, lists w !! s = Some L →
        (∀ n, n ∈ s :: L →
           next_prev n h = Some (n, h) ∧ prev_next n h = Some (n, h))
        ∧ (∀ k, ∃ n, advance k s h = Some (n, h) ∧ n ∈ s :: L)
        ∧ advance (S (length L)) s h = Some (s, h)
        ∧ NoDup (s :: L)
        ∧ (∀ x, x ∈ L → lists w !! x = None)
        ∧ to_list (S (length L)) s h = Some (Some L, h).
Proof.
  intros Hv.
  destruct (valid_seq_preserves ∅ world0 os w inv_world0 Hv) as (h & Hrun & HI).
  exists h. split; [done|]. intros s L Hs.
  destruct HI as (I1 & I2 & I3 & _ & _). pose proof (I1 s L Hs) as Hr.
  split_and!.
  - intros n Hn. by eapply ring_node_consistent.
  - intros k. eapply advance_stays; [done|by left].
  - by apply advance_lap.
  - by destruct Hr.
  - intros x Hx. destruct (lists w !! x) as [Lx|] eqn:E; [|done].
    exfalso. apply (I3 x); [by eexists|]. by apply (I2 s L).
  - apply to_list_ring; [done|lia].
Qed.

End claims.

(** * Further properties of the code *)

Section more.
Implicit Types (h : heap) (s e x y a b c pos this : loc) (L X Y : list loc).

Lemma link_three h this before after :
  alloc h this → alloc h before → alloc h after →
  this ≠ before → this ≠ after →
  ∃ h', link this before after h = Some (tt, h')
    ∧ adj h' before this
    ∧ adj h' this after
    ∧ (∀ x, x ≠ this → x ≠ before → x ≠ after → h' !! x = h !! x).
Proof.
  intros At Ab Aa Hb Ha.
  eexists. split; [by apply link_run|]. split_and!.
  - split; heap_simpl; done.
  - split; heap_simpl; done.
  - intros x ???.
    rewrite lookup_upd_next_ne, !lookup_upd_prev_ne, lookup_upd_next_ne; done.
Qed.

(** [link(before, after)]: afterwards [before.next == this],
    [this.prev == before], [this.next == after] and [after.prev == this],
    whether or not [before] and [after] were adjacent and whatever [this]
    held; no node other than these three is written. *)
Theorem link_links h this before after :
  alloc h this → alloc h before → alloc h after →
  this ≠ before → this ≠ after →
  ∃ h', link this before after h = Some (tt, h')
    ∧ adj h' before this
    ∧ adj h' this after
    ∧ (∀ x, x ≠ this → x ≠ before → x ≠ after → h' !! x = h !! x).
Proof. apply link_three. Qed.

(** [unlink()] of a node between [p] and [n]: afterwards [p] and [n] are
    adjacent, the node is self-referencing, and no node other than these
    three is written. *)
Theorem unlink_unlinks h this p n :
  adj h p this → adj h this n → this ≠ p → this ≠ n →
  ∃ h', unlink this h = Some (tt, h')
    ∧ adj h' p n
    ∧ h' !! this = Some (Node this this)
    ∧ (∀ x, x ≠ this → x ≠ p → x ≠ n → h' !! x = h !! x).
Proof.
  intros H1 H2 Hp Hn.
  destruct (unlink_between h this p n H1 H2 Hp Hn)
    as (h' & Hrun & Hpn & Hu & _ & Hfr & _).
  by exists h'.
Qed.

Lemma link_unlink_run h x p n :
  adj h p n → unlinked h x → x ≠ p → x ≠ n →
  (link x p n ;; unlink x) h = Some (tt, h).
Proof.
  intros [Hpn Hnp] Hu Hxp Hxn.
  assert (rd_next h x = Some x) as Hx1 by (unfold rd_next; by rewrite Hu).
  assert (rd_prev h x = Some x) as Hx2 by (unfold rd_prev; by rewrite Hu).
  assert (alloc h x) as Ax by (by eexists).
  assert (alloc h p) as Ap by eauto using rd_next_alloc.
  assert (alloc h n) as An by eauto using rd_prev_alloc.
  erewrite run_bind; [|by apply link_run].
  erewrite (unlink_run _ x p n); [|heap_simpl; done|heap_simpl; done|solve_alloc..].
  do 2 f_equal. apply heap_ext; intros a.
  - destruct (decide (a = x)) as [->|]; [heap_simpl; done|].
    destruct (decide (a = p)) as [->|]; heap_simpl; done.
  - destruct (decide (a = x)) as [->|]; [heap_simpl; done|].
    destruct (decide (a = n)) as [->|]; heap_simpl; done.
Qed.

(** [unlink()] undoes [link()]: linking an unlinked node between two
    adjacent nodes and unlinking it again gives back the very same heap. *)
Theorem unlink_undoes_link h x p n :
  adj h p n → h !! x = Some (Node x x) → x ≠ p → x ≠ n →
  (link x p n ;; unlink x) h = Some (tt, h).
Proof. intros. by apply link_unlink_run. Qed.

Lemma hd_snoc s L x : hd s (L ++ [x]) = hd x L.
Proof. by destruct L. Qed.

(** [push_back] on any list: the element becomes the last one, the others
    keep their places, and only the element, the sentinel and the former
    last node are written. *)
Theorem push_back_appends h s L x :
  ring h s L → alloc h x → x ∉ s :: L →
  ∃ h', push_back s x h = Some (tt, h')
    ∧ ring h' s (L ++ [x])
    ∧ to_list (S (S (length L))) s h' = Some (Some (L ++ [x]), h')
    ∧ back s h' = Some (x, h')
    ∧ front s h' = Some (hd x L, h')
    ∧ (∀ y, y ≠ x → y ≠ s → y ≠ final s L → h' !! y = h !! y).
Proof.
  intros Hr Ax Hx.
  destruct (push_back_ring h s L x Hr Ax Hx) as (h' & Hrun & Hr' & _ & _).
  pose proof (ring_rd_prev_sentinel _ _ _ Hr) as Hp.
  assert (link x (final s L) s h = Some (tt, h')) as Hlink.
  { unfold push_back in Hrun.
    erewrite run_bind in Hrun by (by apply run_get_prev). exact Hrun. }
  destruct (link_three h x (final s L) s) as (h2 & Hlink2 & _ & _ & Hfr).
  { done. }
  { eapply ring_alloc; [done|apply final_elem]. }
  { eapply ring_alloc; [done|by left]. }
  { clear -Hx. mem_solver. }
  { clear -Hx. mem_solver. }
  rewrite Hlink in Hlink2. injection Hlink2 as <-.
  exists h'. split_and!; try done.
  - apply to_list_ring; [done|]. rewrite length_app. simpl. lia.
  - by apply back_ring with L.
  - apply run_get_next. rewrite <- (hd_snoc s L x). by apply ring_rd_next_sentinel.
  - intros y ???. by apply Hfr.
Qed.

(** [push_front] on any list: the element becomes the first one, and only
    the element, the sentinel and the former first node are written. *)
Theorem push_front_prepends h s L x :
  ring h s L → alloc h x → x ∉ s :: L →
  ∃ h', push_front s x h = Some (tt, h')
    ∧ ring h' s (x :: L)
    ∧ to_list (S (S (length L))) s h' = Some (Some (x :: L), h')
    ∧ front s h' = Some (x, h')
    ∧ back s h' = Some (final x L, h')
    ∧ (∀ y, y ≠ x → y ≠ s → y ≠ hd s L → h' !! y = h !! y).
Proof.
  intros Hr Ax Hx.
  destruct (push_front_ring h s L x Hr Ax Hx) as (h' & Hrun & Hr' & _ & _).
  pose proof (ring_rd_next_sentinel _ _ _ Hr) as Hn.
  assert (link x s (hd s L) h = Some (tt, h')) as Hlink.
  { unfold push_front in Hrun.
    erewrite run_bind in Hrun by (by apply run_get_next). exact Hrun. }
  destruct (link_three h x s (hd s L)) as (h2 & Hlink2 & _ & _ & Hfr).
  { done. }
  { eapply ring_alloc; [done|by left]. }
  { eapply ring_alloc; [done|apply hd_elem]. }
  { clear -Hx. mem_solver. }
  { clear -Hx. mem_solver. }
  rewrite Hlink in Hlink2. injection Hlink2 as <-.
  exists h'. split_and!; try done.
  - apply to_list_ring; [done|]. simpl. lia.
  - by apply front_ring with L.
  - apply run_get_prev. by apply (ring_rd_prev_sentinel h' s (x :: L)).
Qed.

(** [pop_back] on any non-empty list: the last element, the one [back()]
    gave, leaves the list and is self-referencing afterwards; the others
    keep their places; only that element, the sentinel and the new last node
    are written. *)
Theorem pop_back_removes_last h s L x :
  ring h s (L ++ [x]) →
  ∃ h', back s h = Some (x, h)
    ∧ pop_back s h = Some (tt, h')
    ∧ ring h' s L
    ∧ to_list (S (length L)) s h' = Some (Some L, h')
    ∧ h' !! x = Some (Node x x)
    ∧ back s h' = Some (final s L, h')
    ∧ (∀ y, y ≠ x → y ≠ s → y ≠ final s L → h' !! y = h !! y).
Proof.
  intros Hr.
  destruct (pop_back_ring h s L x Hr) as (h' & Hrun & Hr' & Hu & _ & _).
  pose proof (back_ring h s L x Hr) as Hb.
  assert (unlink x h = Some (tt, h')) as Hun.
  { unfold pop_back in Hrun.
    erewrite run_bind in Hrun by exact Hb. exact Hrun. }
  pose proof Hr as (Hnd & _ & Hpx & Hxs & _)%ring_split3. simpl in Hxs.
  destruct (unlink_between h x (final s L) s) as (h2 & Hun2 & _ & _ & _ & Hfr & _);
    [done|done|clear -Hnd; mem_solver..|].
  rewrite Hun in Hun2. injection Hun2 as <-.
  exists h'. split_and!; try done.
  - apply to_list_ring; [done|lia].
  - apply run_get_prev. by apply ring_rd_prev_sentinel.
  - intros y ???. by apply Hfr.
Qed.

(** [pop_front] on any non-empty list, likewise at the other end. *)
Theorem pop_front_removes_first h s L x :
  ring h s (x :: L) →
  ∃ h', front s h = Some (x, h)
    ∧ pop_front s h = Some (tt, h')
    ∧ ring h' s L
    ∧ to_list (S (length L)) s h' = Some (Some L, h')
    ∧ h' !! x = Some (Node x x)
    ∧ front s h' = Some (hd s L, h')
    ∧ (∀ y, y ≠ x → y ≠ s → y ≠ hd s L → h' !! y = h !! y).
Proof.
  intros Hr.
  destruct (pop_front_ring h s L x Hr) as (h' & Hrun & Hr' & Hu & _ & _).
  pose proof (front_ring h s x L Hr) as Hf.
  assert (unlink x h = Some (tt, h')) as Hun.
  { unfold pop_front in Hrun.
    erewrite run_bind in Hrun by exact Hf. exact Hrun. }
  pose proof (ring_split3 h s [] x L) as Hsp. simpl in Hsp.
  apply Hsp in Hr as (Hnd & _ & Hsx & Hxn & _).
  destruct (unlink_between h x s (hd s L)) as (h2 & Hun2 & _ & _ & _ & Hfr & _);
    [done|done|clear -Hnd; mem_solver..|].
  rewrite Hun in Hun2. injection Hun2 as <-.
  exists h'. split_and!; try done.
  - apply to_list_ring; [done|lia].
  - apply run_get_next. by apply ring_rd_next_sentinel.
Qed.

Lemma hd_is_sentinel s L : NoDup (s :: L) → hd s L = s ↔ L = [].
Proof.
  intros Hnd. destruct L as [|x L]; simpl; [done|].
  split; [|done]. intros ->. apply NoDup_cons in Hnd as [Hs _].
  exfalso. apply Hs. by left.
Qed.

(** The observers on any list: [empty()] is true exactly for the list
    without elements, and exactly when [begin() == end()]; [begin()] and
    [front()] give the first element and [back()] the last one; on the
    empty list all three give the sentinel itself.  None of them writes. *)
Theorem observers h s L :
  ring h s L →
  empty s h = Some (bool_decide (L = []), h)
  ∧ (b ← begin_ s; e ← end_ s; mret (Iter.eqb b e)) h = empty s h
  ∧ (b ← begin_ s; e ← end_ s; mret (neqb b e)) h
    = Some (negb (bool_decide (L = [])), h)
  ∧ begin_ s h = Some (hd s L, h)
  ∧ front s h = Some (hd s L, h)
  ∧ back s h = Some (final s L, h).
Proof.
  intros Hr.
  pose proof (ring_rd_next_sentinel _ _ _ Hr) as Hn.
  pose proof (ring_rd_prev_sentinel _ _ _ Hr) as Hp.
  pose proof (empty_ring h s L Hr) as He.
  assert (Iter.eqb (hd s L) s = bool_decide (L = [])) as Heq.
  { unfold Iter.eqb. apply bool_decide_ext, hd_is_sentinel. by destruct Hr. }
  split_and!.
  - done.
  - rewrite He. erewrite run_bind; [|by apply run_get_next].
    unfold end_. rewrite run_bind_ret, run_ret. by rewrite Heq.
  - erewrite run_bind; [|by apply run_get_next].
    unfold end_, neqb. rewrite run_bind_ret, run_ret. by rewrite Heq.
  - by apply run_get_next.
  - by apply run_get_next.
  - by apply run_get_prev.
Qed.

(** Pushing an unlinked element and popping at the same end gives back the
    very same heap, at either end. *)
Theorem push_pop_round_trip h s L x :
  ring h s L → h !! x = Some (Node x x) → x ∉ s :: L →
  (push_back s x ;; pop_back s) h = Some (tt, h)
  ∧ (push_front s x ;; pop_front s) h = Some (tt, h).
Proof.
  intros Hr Hu Hx.
  assert (alloc h x) as Ax by (by eexists).
  assert (x ≠ final s L ∧ x ≠ s ∧ x ≠ hd s L) as (Hx1 & Hx2 & Hx3).
  { clear -Hx. split_and!; mem_solver. }
  split.
  - destruct (push_back_ring h s L x Hr Ax Hx) as (h1 & Hpush & Hr1 & _).
    pose proof (back_ring h1 s L x Hr1) as Hback.
    pose proof (ring_rd_prev_sentinel _ _ _ Hr) as Hp.
    pose proof Hr as Hr0. rewrite <- (app_nil_r L) in Hr0.
    apply ring_split in Hr0 as (_ & _ & Hadj & _). simpl in Hadj.
    pose proof (link_unlink_run h x (final s L) s Hadj Hu Hx1 Hx2) as Hlu.
    unfold push_back in Hpush.
    erewrite run_bind in Hpush by (by apply run_get_prev).
    erewrite run_bind in Hlu by exact Hpush.
    erewrite run_bind.
    2:{ unfold push_back. erewrite run_bind by (by apply run_get_prev). exact Hpush. }
    unfold pop_back. erewrite run_bind by exact Hback. exact Hlu.
  - destruct (push_front_ring h s L x Hr Ax Hx) as (h1 & Hpush & Hr1 & _).
    pose proof (front_ring h1 s x L Hr1) as Hfront.
    pose proof (ring_rd_next_sentinel _ _ _ Hr) as Hn.
    pose proof (ring_split h s [] L) as Hsp. simpl in Hsp.
    apply Hsp in Hr as (_ & _ & Hadj & _).
    pose proof (link_unlink_run h x s (hd s L) Hadj Hu Hx2 Hx3) as Hlu.
    unfold push_front in Hpush.
    erewrite run_bind in Hpush by (by apply run_get_next).
    erewrite run_bind in Hlu by exact Hpush.
    erewrite run_bind.
    2:{ unfold push_front. erewrite run_bind by (by apply run_get_next). exact Hpush. }
    unfold pop_front. erewrite run_bind by exact Hfront. exact Hlu.
Qed.

(** Erasing what [insert] returned gives back the position of the insertion
    and, for an unlinked element, the very same heap. *)
Theorem insert_erase_round_trip h s L pos x :
  ring h s L → pos ∈ L ++ [s] →
  h !! x = Some (Node x x) → x ∉ s :: L →
  (it ← insert s pos x; erase s it) h = Some (pos, h).
Proof.
  intros Hr (X & Y & -> & ->)%position_split Hu Hx.
  assert (alloc h x) as Ax by (by eexists).
  assert (x ≠ final s X ∧ x ≠ hd s Y) as (Hx1 & Hx2).
  { clear -Hx. split; mem_solver. }
  pose proof (ring_rd_prev _ _ _ _ Hr) as Hp.
  pose proof Hr as (_ & _ & Hadj & _)%ring_split.
  destruct (link_in_ring h s X Y x Hr Ax Hx) as (h1 & Hlink & Hr1 & _).
  pose proof (link_unlink_run h x (final s X) (hd s Y) Hadj Hu Hx1 Hx2) as Hlu.
  erewrite run_bind in Hlu by exact Hlink.
  apply ring_split3 in Hr1 as (_ & _ & _ & [Hxn Hnx] & _).
  erewrite run_bind.
  2:{ unfold insert. erewrite run_bind by (by apply run_get_prev).
      erewrite run_bind by exact Hlink. apply run_ret. }
  unfold erase, Iter.incr.
  erewrite run_bind by (by apply run_get_next).
  erewrite run_bind by (by apply run_get_prev).
  erewrite run_bind by exact Hlu. apply run_ret.
Qed.

(** The ends through iterators: [insert(end(), x)] is [push_back(x)] and
    [insert(begin(), x)] is [push_front(x)]; on a non-empty list
    [erase(begin())] is [pop_front()] and [erase(--end())] is
    [pop_back()], each returning the position after the element removed. *)
Theorem ends_via_iterators :
  (∀ h s x,
     (e ← end_ s; insert s e x) h = (push_back s x ;; mret x) h)
  ∧ (∀ h s L x, ring h s L →
     (b ← begin_ s; insert s b x) h = (push_front s x ;; mret x) h)
  ∧ (∀ h s L x, ring h s (x :: L) →
     (b ← begin_ s; erase s b) h = (pop_front s ;; begin_ s) h)
  ∧ (∀ h s L x, ring h s (L ++ [x]) →
     (e ← end_ s; l ← Iter.decr e; erase s l) h = (pop_back s ;; end_ s) h).
Proof.
  split_and!.
  - intros h s x. unfold end_. rewrite run_bind_ret.
    unfold insert, push_back, mbind, M_bind.
    destruct (get_prev s h) as [[p h0]|]; [|done].
    by destruct (link x p s h0) as [[[] h1]|].
  - intros h s L x Hr.
    pose proof (ring_rd_next_sentinel _ _ _ Hr) as Hn.
    pose proof (ring_rd_prev h s [] L Hr) as Hp. simpl in Hp.
    unfold begin_. erewrite run_bind by (by apply run_get_next).
    unfold insert. erewrite run_bind by (by apply run_get_prev).
    unfold push_front, mbind, M_bind. rewrite (run_get_next h s (hd s L) Hn).
    by destruct (link x s (hd s L) h) as [[[] h1]|].
  - intros h s L x Hr.
    destruct (pop_front_ring h s L x Hr) as (h' & Hpop & Hr' & _).
    pose proof (front_ring h s x L Hr) as Hf.
    assert (front s h' = Some (hd s L, h')) as Hf'
      by (by apply run_get_next, ring_rd_next_sentinel).
    destruct (erase_ring h s [] x L Hr) as (h2 & Her & _).
    assert (h2 = h') as ->.
    { unfold pop_front in Hpop. erewrite run_bind in Hpop by exact Hf.
      unfold erase, Iter.incr in Her.
      pose proof (ring_split3 h s [] x L) as Hsp. simpl in Hsp.
      apply Hsp in Hr as (_ & _ & _ & [Hxn Hnx] & _).
      erewrite run_bind in Her by (by apply run_get_next).
      erewrite run_bind in Her by (by apply run_get_prev).
      erewrite run_bind in Her by exact Hpop. rewrite run_ret in Her.
      congruence. }
    unfold begin_ at 1. erewrite run_bind by exact Hf.
    erewrite (run_bind (pop_front s)) by exact Hpop.
    rewrite Her. symmetry. exact Hf'.
  - intros h s L x Hr.
    destruct (pop_back_ring h s L x Hr) as (h' & Hpop & Hr' & _).
    pose proof (back_ring h s L x Hr) as Hb.
    destruct (erase_ring h s L x [] Hr) as (h2 & Her & _). simpl in Her.
    assert (h2 = h') as ->.
    { unfold pop_back in Hpop. erewrite run_bind in Hpop by exact Hb.
      unfold erase, Iter.incr in Her.
      apply ring_split3 in Hr as (_ & _ & _ & [Hxn Hnx] & _). simpl in *.
      erewrite run_bind in Her by (by apply run_get_next).
      erewrite run_bind in Her by (by apply run_get_prev).
      erewrite run_bind in Her by exact Hpop. rewrite run_ret in Her.
      congruence. }
    unfold end_ at 1. rewrite run_bind_ret.
    unfold Iter.decr. erewrite run_bind by exact Hb.
    erewrite (run_bind (pop_back s)) by exact Hpop.
    rewrite Her. done.
Qed.

(** A ring can be read from any of its nodes; here from the first element. *)
Lemma ring_rotate h s x L : ring h s (x :: L) → ring h x (L ++ [s]).
Proof.
  intros [Hnd Hp]. simpl in Hp. destruct Hp as [Hsx Hp].
  split; [clear -Hnd; mem_solver|].
  apply path_snoc. split; [done|]. by rewrite final_snoc.
Qed.

(** [erase(end())], which the contract forbids: on an empty list nothing
    happens and [end()] comes back; on a non-empty list it is the sentinel
    that is unlinked, so the list is empty afterwards, [begin()] of before
    comes back, and the former elements are left as a ring among
    themselves. *)
Theorem erase_end_detaches_sentinel :
  (∀ h s, ring h s [] → erase s s h = Some (s, h))
  ∧ (∀ h s x L, ring h s (x :: L) →
     ∃ h', erase s s h = Some (x, h')
       ∧ ring h' s []
       ∧ empty s h' = Some (true, h')
       ∧ ring h' x L
       ∧ (∀ k, ∃ n, advance k x h' = Some (n, h') ∧ n ∈ x :: L ∧ n ≠ s)).
Proof.
  split.
  - intros h s Hr.
    pose proof (ring_rd_next_sentinel _ _ _ Hr) as Hn.
    pose proof (ring_rd_prev_sentinel _ _ _ Hr) as Hp. simpl in Hn, Hp.
    unfold erase, Iter.incr.
    erewrite run_bind by (by apply run_get_next).
    erewrite run_bind by (by apply run_get_prev).
    erewrite run_bind by (apply unlink_unlinked; by apply ring_nil).
    apply run_ret.
  - intros h s x L Hr.
    pose proof (ring_rd_next_sentinel _ _ _ Hr) as Hn. simpl in Hn.
    pose proof (ring_rd_prev h s [] (x :: L) Hr) as Hp. simpl in Hp.
    pose proof Hr as [Hnd _].
    apply ring_rotate in Hr.
    destruct (unlink_in_ring h x L s [] Hr) as (h' & Hun & Hr' & Hu & _).
    rewrite app_nil_r in Hr'. apply ring_nil in Hu.
    exists h'. split_and!; try done.
    + unfold erase, Iter.incr.
      erewrite run_bind by (by apply run_get_next).
      erewrite run_bind by (by apply run_get_prev).
      erewrite run_bind by exact Hun. apply run_ret.
    + by rewrite (empty_ring h' s []).
    + intros k. destruct (advance_stays h' x L k x Hr') as (n & Hrun & Hin);
        [by left|].
      exists n. split_and!; [done..|]. clear -Hnd Hin. mem_solver.
Qed.

(** [clear()] writes the sentinel and nothing else: the list is empty, but
    its former elements still point where they did, the first one back at
    the sentinel and the last one on to it, and none of them is in the
    unlinked state. *)
Theorem clear_leaves_elements h s x L :
  ring h s (x :: L) →
  ∃ h', clear s h = Some (tt, h')
    ∧ ring h' s []
    ∧ (∀ y, y ≠ s → h' !! y = h !! y)
    ∧ get_prev x h' = Some (s, h')
    ∧ get_next (final x L) h' = Some (s, h')
    ∧ (∀ y, y ∈ x :: L → h' !! y ≠ Some (Node y y)).
Proof.
  intros Hr.
  destruct (clear_ring h s) as (h' & Hrun & Hr' & Hfr & _).
  { eapply ring_alloc; [done|by left]. }
  pose proof Hr as [Hnd _].
  exists h'. split_and!; try done.
  - apply run_get_prev. unfold rd_prev. rewrite Hfr by (clear -Hnd; mem_solver).
    by apply (ring_rd_prev h s [] (x :: L)).
  - apply run_get_next. unfold rd_next. rewrite Hfr by (clear -Hnd; mem_solver).
    pose proof (ring_rd_next h s (x :: L) [] ) as Hn. simpl in Hn.
    apply Hn. by rewrite app_nil_r.
  - intros y Hy Hself.
    rewrite Hfr in Hself by (clear -Hnd Hy; mem_solver).
    apply list_elem_of_split in Hy as (X & Y & HXY). rewrite HXY in Hr.
    apply ring_split3 in Hr as (Hnd' & _ & _ & [Hyn _] & _).
    unfold rd_next in Hyn. rewrite Hself in Hyn. simpl in Hyn.
    injection Hyn as Hyn. clear -Hnd' Hyn.
    assert (hd s Y ≠ y) by mem_solver. congruence.
Qed.

(** Unlinking a former element after [clear()] writes through its stale
    pointers: with two or more former elements the sentinel ends up with [prev] on itself
    and [next] on the second former element, so [empty()] is true while
    [begin() != end()], and the list is no ring at all. *)
Theorem unlink_after_clear_corrupts h s x y L :
  ring h s (x :: y :: L) →
  ∃ h', (clear s ;; unlink x) h = Some (tt, h')
    ∧ empty s h' = Some (true, h')
    ∧ begin_ s h' = Some (y, h')
    ∧ y ≠ s
    ∧ (∀ L', ¬ ring h' s L').
Proof.
  intros Hr.
  pose proof (ring_split3 h s [] x (y :: L)) as Hsp. simpl in Hsp.
  pose proof Hr as (Hnd & _ & [Hsx Hxs] & [Hxy Hyx] & _)%Hsp.
  assert (alloc h s) as As by eauto using rd_next_alloc.
  assert (alloc h x) as Ax by eauto using rd_next_alloc.
  assert (alloc h y) as Ay by eauto using rd_prev_alloc.
  assert (x ≠ s ∧ y ≠ s ∧ x ≠ y) as (Hxs' & Hys & Hxy').
  { clear -Hnd. split_and!; mem_solver. }
  eexists. split_and!.
  - erewrite run_bind; [|unfold clear; run].
    apply (unlink_run _ x s y); [heap_simpl; done..|solve_alloc|solve_alloc].
  - unfold empty. erewrite run_bind; [|apply run_get_prev; heap_simpl; done].
    rewrite run_ret. by rewrite bool_decide_eq_true_2.
  - apply run_get_next. heap_simpl. done.
  - done.
  - intros L' Hr'.
    pose proof (ring_rd_prev_sentinel _ _ _ Hr') as Hp.
    pose proof (ring_rd_next_sentinel _ _ _ Hr') as Hn.
    heap_simpl_all Hp. heap_simpl_all Hn.
    injection Hp as Hp. injection Hn as Hn.
    destruct L' as [|z L']; simpl in *; [congruence|].
    destruct Hr' as [Hnd' _]. pose proof (final_elem z L') as Hfin.
    rewrite <- Hp in Hfin. clear -Hnd' Hfin. mem_solver.
Qed.

(** Move assignment to a list that holds elements: the list takes over the
    elements of [other], [other] is empty, and the elements the list held
    before are written by nobody; they keep their pointers into the old
    ring. *)
Theorem move_assign_replaces h this other Lt Lo :
  ring h this Lt → ring h other Lo →
  (∀ x, x ∈ this :: Lt → x ∉ other :: Lo) →
  ∃ h', move_assign this other h = Some (tt, h')
    ∧ ring h' this Lo
    ∧ to_list (S (length Lo)) this h' = Some (Some Lo, h')
    ∧ ring h' other []
    ∧ (∀ x, x ∈ Lt → h' !! x = h !! x).
Proof.
  intros Hrt Hro Hdis.
  destruct (move_assign_ring h this other Lo) as (h' & Hrun & Hr1 & Hr2 & Hfr & _).
  { done. }
  { apply (ring_alloc h this Lt this Hrt). by left. }
  { apply Hdis. by left. }
  exists h'. split_and!; try done.
  - apply to_list_ring; [done|lia].
  - intros x Hx. destruct Hrt as [Hnd _]. apply Hfr.
    + clear -Hnd Hx. mem_solver.
    + apply Hdis. by right.
Qed.

(** [splice] rewires three links, whatever the length of the range: with
    [p], [sl] and [q] the nodes before [first], [last] and [pos], it links
    [p] to [last], [q] to [first] and [sl] to [pos]; every other link stays,
    and no node but these six is written. *)
Theorem splice_rewires_three_links h this pos other first last p sl q :
  adj h p first → adj h sl last → adj h q pos →
  first ≠ last → pos ≠ last → pos ≠ first →
  ∃ h', splice this pos other first last h = Some (tt, h')
    ∧ adj h' p last ∧ adj h' q first ∧ adj h' sl pos
    ∧ (∀ x y, adj h x y → x ∉ [p; q; sl] → adj h' x y)
    ∧ (∀ x, x ∉ [p; q; sl; first; last; pos] → h' !! x = h !! x).
Proof.
  intros H1 H2 H3 Hfl Hpl Hpf.
  destruct (splice_between h this pos other first last p sl q)
    as (h' & Hrun & Ha & Hb & Hc & Hfr & Hlk & _); [done..|].
  exists h'. split_and!; try done.
  - intros x y Hxy Hx. apply Hfr; [done|..]; intros ->; apply Hx;
      repeat first [by left | right].
  - intros x Hx. apply Hlk; intros ->; apply Hx;
      repeat first [by left | right].
Qed.

Lemma advance_step h s L k n m m' :
  ring h s L → n ∈ s :: L →
  advance k n h = Some (m, h) → rd_next h m = Some m' →
  advance (S k) n h = Some (m', h).
Proof.
  intros Hr. revert n. induction k as [|k IH]; intros n Hn Hadv Hm; simpl in *.
  - rewrite run_ret in Hadv. injection Hadv as ->.
    unfold Iter.incr. erewrite run_bind by (by apply run_get_next). done.
  - destruct (ring_next h s L n Hr Hn) as (n1 & Hn1 & [Hnn1 _]).
    unfold Iter.incr in *.
    erewrite run_bind in Hadv by (by apply run_get_next).
    erewrite run_bind by (by apply run_get_next).
    by apply IH.
Qed.

Lemma retreat_step h s L k n m m' :
  ring h s L → n ∈ s :: L →
  retreat k n h = Some (m, h) → rd_prev h m = Some m' →
  retreat (S k) n h = Some (m', h).
Proof.
  intros Hr. revert n. induction k as [|k IH]; intros n Hn Hret Hm; simpl in *.
  - rewrite run_ret in Hret. injection Hret as ->.
    unfold Iter.decr. erewrite run_bind by (by apply run_get_prev). done.
  - destruct (ring_prev h s L n Hr Hn) as (n1 & Hn1 & [_ Hnn1]).
    unfold Iter.decr in *.
    erewrite run_bind in Hret by (by apply run_get_prev).
    erewrite run_bind by (by apply run_get_prev).
    by apply IH.
Qed.

Lemma advance_then_retreat h s L k n :
  ring h s L → n ∈ s :: L →
  ∃ m, m ∈ s :: L ∧ advance k n h = Some (m, h) ∧ retreat k m h = Some (n, h).
Proof.
  intros Hr Hn. induction k as [|k (m & Hm & Hadv & Hret)].
  - by exists n.
  - destruct (ring_next h s L m Hr Hm) as (m' & Hm' & [Hmm' Hm'm]).
    exists m'. split_and!; [done| |].
    + by eapply advance_step.
    + simpl. unfold Iter.decr. erewrite run_bind by (by apply run_get_prev). done.
Qed.

Lemma retreat_then_advance h s L k n :
  ring h s L → n ∈ s :: L →
  ∃ m, m ∈ s :: L ∧ retreat k n h = Some (m, h) ∧ advance k m h = Some (n, h).
Proof.
  intros Hr Hn. induction k as [|k (m & Hm & Hret & Hadv)].
  - by exists n.
  - destruct (ring_prev h s L m Hr Hm) as (m' & Hm' & [Hm'm Hmm']).
    exists m'. split_and!; [done| |].
    + by eapply retreat_step.
    + simpl. unfold Iter.incr. erewrite run_bind by (by apply run_get_next). done.
Qed.

(** In a ring [operator--] undoes [operator++] and the other way round,
    over any number of steps and across the sentinel: an iterator moved [k]
    steps one way and [k] steps back compares equal to what it was. *)
Theorem retreat_undoes_advance h s L n k :
  ring h s L → n ∈ s :: L →
  (m ← advance k n; retreat k m) h = Some (n, h)
  ∧ (m ← retreat k n; advance k m) h = Some (n, h)
  ∧ (m ← advance k n; m' ← retreat k m; mret (neqb m' n)) h = Some (false, h).
Proof.
  intros Hr Hn.
  destruct (advance_then_retreat h s L k n Hr Hn) as (m & _ & Ha & Hb).
  destruct (retreat_then_advance h s L k n Hr Hn) as (m2 & _ & Hc & Hd).
  split_and!.
  - erewrite run_bind by exact Ha. done.
  - erewrite run_bind by exact Hc. done.
  - erewrite run_bind by exact Ha. erewrite run_bind by exact Hb.
    rewrite run_ret. unfold neqb, Iter.eqb. by rewrite bool_decide_eq_true_2.
Qed.

(** Post-increment and post-decrement give back the position the iterator
    had and move it one step; in a ring, stepping the moved iterator the
    other way gives the position that was returned. *)
Theorem post_step_returns_old h s L n :
  ring h s L → n ∈ s :: L →
  (∃ n', post_incr n h = Some ((n, n'), h)
     ∧ Iter.incr n h = Some (n', h) ∧ Iter.decr n' h = Some (n, h)
     ∧ n' ∈ s :: L)
  ∧ (∃ n', post_decr n h = Some ((n, n'), h)
     ∧ Iter.decr n h = Some (n', h) ∧ Iter.incr n' h = Some (n, h)
     ∧ n' ∈ s :: L).
Proof.
  intros Hr Hn.
  destruct (ring_next h s L n Hr Hn) as (a & Ha & [Ha1 Ha2]).
  destruct (ring_prev h s L n Hr Hn) as (b & Hb & [Hb1 Hb2]).
  split.
  - exists a. split_and!; [|by apply run_get_next|by apply run_get_prev|done].
    unfold post_incr, Iter.incr. erewrite run_bind by (by apply run_get_next). done.
  - exists b. split_and!; [|by apply run_get_prev|by apply run_get_next|done].
    unfold post_decr, Iter.decr. erewrite run_bind by (by apply run_get_prev). done.
Qed.

Lemma iterate_back_ring h s X Y fuel :
  ring h s (X ++ Y) → length X < fuel →
  iterate_back fuel s (hd s Y) h = Some (Some (rev X), h).
Proof.
  revert Y fuel. induction X as [|x X IH] using rev_ind; intros Y fuel Hr Hlen;
    (destruct fuel as [|fuel]; [simpl in Hlen; lia|]); simpl.
  - pose proof (ring_rd_next_sentinel _ _ _ Hr) as Hn. simpl in Hn.
    unfold begin_. erewrite run_bind by (by apply run_get_next).
    unfold Iter.eqb. by rewrite bool_decide_eq_true_2.
  - pose proof (ring_rd_next_sentinel _ _ _ Hr) as Hn.
    pose proof (ring_rd_prev _ _ _ _ Hr) as Hp. rewrite final_snoc in Hp.
    unfold begin_. erewrite run_bind by (by apply run_get_next).
    unfold Iter.eqb. rewrite bool_decide_eq_false_2.
    2:{ destruct Hr as [Hnd _].
        replace (hd s ((X ++ [x]) ++ Y)) with (hd x X) by (by destruct X).
        clear -Hnd. mem_solver. }
    unfold Iter.decr. erewrite run_bind by (by apply run_get_prev).
    rewrite <- (assoc_L (++)) in Hr. simpl in Hr.
    rewrite length_app in Hlen. simpl in Hlen.
    erewrite run_bind by (apply (IH (x :: Y)); [done|lia]).
    rewrite run_ret. by rewrite rev_app_distr.
Qed.

(** Iteration backwards, from [end()] down to [begin()] with [operator--],
    visits the elements of the list in reverse order. *)
Theorem reverse_iteration h s L fuel :
  ring h s L → length L < fuel →
  to_list_rev fuel s h = Some (Some (rev L), h).
Proof.
  intros Hr Hlen. unfold to_list_rev, end_. rewrite run_bind_ret.
  apply (iterate_back_ring h s L []); [by rewrite app_nil_r|done].
Qed.

(** Iteration that starts inside a set of nodes closed under [next] that
    does not hold the sentinel never reaches [end()]. *)
Lemma iterate_trapped h s (N : list loc) fuel it :
  s ∉ N → (∀ n, n ∈ N → ∃ m, m ∈ N ∧ rd_next h n = Some m) → it ∈ N →
  iterate fuel s it h = Some (None, h).
Proof.
  intros Hs Hcl. revert it. induction fuel as [|fuel IH]; intros it Hit; simpl.
  - done.
  - unfold end_. rewrite run_bind_ret. unfold Iter.eqb.
    rewrite bool_decide_eq_false_2 by (intros ->; done).
    destruct (Hcl it Hit) as (m & Hm & Hnext).
    unfold Iter.incr. erewrite run_bind by (by apply run_get_next).
    erewrite run_bind by (by apply IH). done.
Qed.

(** [push_back] of the element that already is the last one of the list,
    which the contract forbids and the code does not check: the element
    ends up as its own successor, so iteration from [begin()] never reaches
    [end()], with whatever number of steps. *)
Theorem push_back_again_loops h s L x :
  ring h s (L ++ [x]) →
  ∃ h', push_back s x h = Some (tt, h')
    ∧ get_next x h' = Some (x, h')
    ∧ (∀ fuel, to_list fuel s h' = Some (None, h')).
Proof.
  intros Hr.
  pose proof (back_ring h s L x Hr) as Hb.
  pose proof (ring_rd_next_sentinel _ _ _ Hr) as Hn.
  pose proof Hr as [Hnd _].
  assert (alloc h x) as Ax.
  { eapply ring_alloc; [done|]. clear. set_solver. }
  assert (alloc h s) as As by (eapply ring_alloc; [done|by left]).
  assert (x ≠ s) as Hxs by (clear -Hnd; mem_solver).
  eexists. split_and!.
  - unfold push_back. erewrite run_bind by exact Hb. by apply link_run.
  - apply run_get_next. heap_simpl. done.
  - intros fuel. unfold to_list, begin_.
    erewrite run_bind; [|apply run_get_next; heap_simpl; exact Hn].
    apply (iterate_trapped _ s (L ++ [x])).
    + clear -Hnd. mem_solver.
    + intros n [Hin| ->%list_elem_of_singleton]%elem_of_app.
      * apply list_elem_of_split in Hin as (A & B & ->).
        rewrite <- (assoc_L (++)) in Hr. simpl in Hr.
        apply ring_split3 in Hr as (Hnd' & _ & _ & [Hnz _] & _).
        rewrite hd_snoc in Hnz.
        exists (hd x B). split.
        -- rewrite <- (assoc_L (++)). simpl. pose proof (hd_elem x B) as Hh.
           clear -Hh. set_solver.
        -- assert (x ≠ n) by (clear -Hnd'; mem_solver). heap_simpl. done.
      * exists x. split; [clear; set_solver|]. heap_simpl. done.
    + rewrite hd_snoc. pose proof (hd_elem x L) as Hh. clear -Hh. set_solver.
Qed.

(** Moving a list away and back, [a = std::move(b); b = std::move(a)]:
    [b] holds its elements again, in order, and [a] is empty; what [a] held
    before is in no list. *)
Theorem move_there_and_back h a b La Lb :
  ring h a La → ring h b Lb →
  (∀ x, x ∈ a :: La → x ∉ b :: Lb) →
  ∃ h', (move_assign a b ;; move_assign b a) h = Some (tt, h')
    ∧ ring h' b Lb
    ∧ ring h' a []
    ∧ (∀ x, x ∈ La → h' !! x = h !! x).
Proof.
  intros Hra Hrb Hdis.
  pose proof Hra as [Hnda _].
  destruct (move_assign_ring h a b Lb) as (h1 & Hrun1 & Ha1 & Hb1 & Hfr1 & Hal1).
  { done. }
  { apply (ring_alloc h a La a Hra). by left. }
  { apply Hdis. by left. }
  destruct (move_assign_ring h1 b a Lb) as (h2 & Hrun2 & Hb2 & Ha2 & Hfr2 & _).
  { done. }
  { apply (ring_alloc h1 b [] b Hb1). by left. }
  { destruct Hrb as [Hndb _]. apply NoDup_cons in Hndb as [Hb _].
    intros [Heq|Hin]%elem_of_cons; [|done].
    apply (Hdis a); [by left|]. rewrite Heq. by left. }
  exists h2. split_and!; try done.
  - erewrite run_bind by exact Hrun1. done.
  - intros x Hx.
    assert (x ≠ a) by (clear -Hnda Hx; mem_solver).
    assert (x ∉ b :: Lb) as Hxb by (apply Hdis; by right).
    rewrite Hfr2, Hfr1; [done..| |].
    + intros ->. apply Hxb. by left.
    + intros [->|Hin]%elem_of_cons; [done|]. apply Hxb. by right.
Qed.

(** Splicing a range into another list and splicing it back with the same
    iterators gives both lists their elements again, in order. *)
Theorem splice_there_and_back h this other A R B C D :
  ring h other (A ++ R ++ B) → ring h this (C ++ D) →
  (∀ x, x ∈ other :: A ++ R ++ B → x ∉ this :: C ++ D) →
  R ≠ [] →
  ∃ first h1 h2,
    first = hd other R
    ∧ splice this (hd this D) other first (hd other B) h = Some (tt, h1)
    ∧ ring h1 other (A ++ B) ∧ ring h1 this (C ++ R ++ D)
    ∧ splice other (hd other B) this first (hd this D) h1 = Some (tt, h2)
    ∧ ring h2 other (A ++ R ++ B) ∧ ring h2 this (C ++ D).
Proof.
  intros Hro Hrt Hdis HR.
  destruct R as [|f R]; [done|]. simpl.
  destruct (splice_two_rings h this other other this A (f :: R) B C D Hro Hrt Hdis)
    as (h1 & Hrun1 & Ho1 & Ht1 & _).
  destruct (splice_two_rings h1 other this this other C (f :: R) D A B)
    as (h2 & Hrun2 & Ht2 & Ho2 & _).
  { done. }
  { done. }
  { destruct Hro as [Hnd1 _], Hrt as [Hnd2 _]. clear -Hnd1 Hnd2 Hdis.
    simpl in *. mem_solver. }
  exists f, h1, h2. simpl in *. split_and!; done.
Qed.

End more.

(** * Concrete instances *)

(** Decidable facts about concrete heaps are settled by evaluation. *)
Ltac by_eval := apply (bool_decide_unpack _); vm_compute; exact I.

Lemma unlink_idempotent_witness :
  unlink 7 heap_empty_list = Some (tt, heap_empty_list)
  ∧ (unlink 7 ;; unlink 7) heap_empty_list = unlink 7 heap_empty_list.
Proof.
  destruct (unlink_idempotent heap_empty_list 7) as [H1 H2].
  split; [apply H1; reflexivity | exact H2].
Defined.

(** C4, as stated, fails on the empty list at address 7: both calls return
    the heap they were given, which holds a well-formed empty ring. *)
Lemma pop_on_empty_counterexample :
  ring heap_empty_list 7 []
  ∧ pop_back 7 heap_empty_list = Some (tt, heap_empty_list)
  ∧ pop_front 7 heap_empty_list = Some (tt, heap_empty_list)
  ∧ ¬ pop_back_corrupts heap_empty_list 7
  ∧ ¬ pop_front_corrupts heap_empty_list 7.
Proof.
  assert (ring heap_empty_list 7 []) as Hr by by_eval.
  assert (pop_back 7 heap_empty_list = Some (tt, heap_empty_list)) as Hb
    by (vm_compute; reflexivity).
  assert (pop_front 7 heap_empty_list = Some (tt, heap_empty_list)) as Hf
    by (vm_compute; reflexivity).
  split_and!; [done..| |]; intros (h' & Hrun & Hbad).
  - rewrite Hb in Hrun. injection Hrun as <-. done.
  - rewrite Hf in Hrun. injection Hrun as <-. done.
Qed.

Lemma pop_on_empty_harmless_witness :
  pop_back 7 heap_empty_list = unlink 7 heap_empty_list
  ∧ pop_front 7 heap_empty_list = unlink 7 heap_empty_list
  ∧ pop_back 7 heap_empty_list = Some (tt, heap_empty_list)
  ∧ pop_front 7 heap_empty_list = Some (tt, heap_empty_list)
  ∧ empty 7 heap_empty_list = Some (true, heap_empty_list).
Proof. apply pop_on_empty_harmless. by_eval. Defined.

Lemma empty_round_trip_witness :
  ∃ h0 h1 h2,
    list_ctor 40 heap_two = Some (tt, h0)
    ∧ empty 40 h0 = Some (true, h0)
    ∧ push_back 40 3 h0 = Some (tt, h1)
    ∧ empty 40 h1 = Some (false, h1)
    ∧ pop_back 40 h1 = Some (tt, h2)
    ∧ empty 40 h2 = Some (true, h2)
    ∧ h2 !! 3 = Some (Node 3 3).
Proof. apply empty_round_trip; [by_eval | lia]. Defined.

Lemma push_back_order_witness :
  ∃ h',
    (push_back 30 3 ;; push_back 30 1 ;; push_back 30 2) heap_unlinked
    = Some (tt, h')
    ∧ to_list 4 30 h' = Some (Some [3; 1; 2], h')
    ∧ begin_ 30 h' = Some (3, h')
    ∧ Iter.incr 3 h' = Some (1, h')
    ∧ Iter.incr 1 h' = Some (2, h')
    ∧ Iter.incr 2 h' = end_ 30 h'
    ∧ front 30 h' = Some (3, h')
    ∧ back 30 h' = Some (2, h').
Proof. apply push_back_order; by_eval. Defined.

Lemma insert_erase_semantics_witness :
  (∃ X Y h', [1; 2] = X ++ Y ∧ 2 = hd 10 Y
     ∧ insert 10 2 3 heap_two = Some (3, h')
     ∧ ring h' 10 (X ++ 3 :: Y)
     ∧ to_list 4 10 h' = Some (Some (X ++ 3 :: Y), h'))
  ∧ (∃ X Y h', [1; 2] = X ++ 1 :: Y
     ∧ erase 10 1 heap_two = Some (hd 10 Y, h')
     ∧ ring h' 10 (X ++ Y)
     ∧ h' !! 1 = Some (Node 1 1)
     ∧ to_list 2 10 h' = Some (Some (X ++ Y), h')).
Proof.
  destruct (insert_erase_semantics heap_two 10 [1; 2]) as [Hi He]; [by_eval|].
  split; [apply Hi | apply He]; by_eval.
Defined.

Lemma move_transfer_witness :
  ∃ h',
    move_ctor 20 10 heap_two = Some (tt, h')
    ∧ ring h' 20 [1; 2]
    ∧ to_list 3 20 h' = Some (Some [1; 2], h')
    ∧ ring h' 10 []
    ∧ empty 10 h' = Some (true, h')
    ∧ (∀ x, alloc h' x ↔ x = 20 ∨ alloc heap_two x).
Proof. apply move_transfer; by_eval. Defined.

Lemma self_move_assign_empties_witness :
  ∃ h',
    move_assign 10 10 heap_two = Some (tt, h')
    ∧ empty 10 h' = Some (true, h')
    ∧ h' !! 10 = Some (Node 10 10)
    ∧ to_list 1 10 h' = Some (Some [], h')
    ∧ (∀ k x, x ∈ [1; 2] →
         advance k 10 h' ≠ Some (x, h') ∧ retreat k 10 h' ≠ Some (x, h')).
Proof. apply self_move_assign_empties. by_eval. Defined.

(** The range [2, 3] of [A] goes to [B] also when the list argument is the
    address 99, where nothing lives. *)
Lemma splice_ignores_source_list_witness :
  splice 20 6 10 2 4 heap_AB = splice 20 6 99 2 4 heap_AB
  ∧ ∃ h', splice 20 6 99 2 4 heap_AB = Some (tt, h')
      ∧ ring h' 10 [1; 4]
      ∧ ring h' 20 [5; 2; 3; 6].
Proof.
  destruct splice_ignores_source_list as (Hsame & Hany).
  split; [apply Hsame|].
  apply (Hany heap_AB 20 99 10 [1] [2; 3] [4] [5] [6]); [by_eval..|].
  intros x Hx Hy. revert Hx.
  repeat (apply elem_of_cons in Hy as [->|Hy]; [by_eval|]).
  by apply elem_of_nil in Hy.
Defined.

Lemma splice_correct_witness :
  ∃ h', splice 20 6 10 2 4 heap_AB = Some (tt, h')
    ∧ ring h' 10 [1; 4]
    ∧ ring h' 20 [5; 2; 3; 6].
Proof.
  destruct splice_correct as (Htwo & _).
  apply (Htwo heap_AB 20 10 [1] [2; 3] [4] [5] [6]); [by_eval..|].
  intros x Hx Hy. revert Hx.
  repeat (apply elem_of_cons in Hy as [->|Hy]; [by_eval|]).
  by apply elem_of_nil in Hy.
Defined.

Ltac solve_fresh := split; [by_eval | reflexivity].
Ltac solve_free :=
  split; [by_eval | apply (bool_decide_unpack (map_Forall _ _)); vm_compute; exact I].

Lemma ring_invariant_witness :
  ∃ h, run_ops example_session ∅ = Some (tt, h)
    ∧ ∀ s L, lists example_world !! s = Some L →
        (∀ n, n ∈ s :: L →
           next_prev n h = Some (n, h) ∧ prev_next n h = Some (n, h))
        ∧ (∀ k, ∃ n, advance k s h = Some (n, h) ∧ n ∈ s :: L)
        ∧ advance (S (length L)) s h = Some (s, h)
        ∧ NoDup (s :: L)
        ∧ (∀ x, x ∈ L → lists example_world !! x = None)
        ∧ to_list (S (length L)) s h = Some (Some L, h).
Proof.
  apply ring_invariant. unfold example_session.
  eapply valid_cons; [apply valid_new_element; solve_fresh|].
  eapply valid_cons; [apply valid_new_element; solve_fresh|].
  eapply valid_cons; [apply valid_new_element; solve_fresh|].
  eapply valid_cons; [apply valid_new_element; solve_fresh|].
  eapply valid_cons; [apply valid_construct; solve_fresh|].
  eapply valid_cons; [apply valid_construct; solve_fresh|].
  eapply valid_cons; [apply (valid_push_back _ 10 [] 1); [reflexivity|solve_free]|].
  eapply valid_cons; [apply (valid_push_back _ 10 [1] 2); [reflexivity|solve_free]|].
  eapply valid_cons; [apply (valid_push_front _ 10 [1; 2] 3); [reflexivity|solve_free]|].
  eapply valid_cons; [apply (valid_insert _ 10 [3] [1; 2] 4); [reflexivity|solve_free]|].
  eapply valid_cons;
    [apply (valid_splice _ 20 10 [3] [4; 1] [2] [] []); [lia|reflexivity..]|].
  eapply valid_cons; [apply (valid_erase _ 10 [] 3 [2]); reflexivity|].
  eapply valid_cons; [apply (valid_splice_before _ 20 [] 4 [] [1] []); reflexivity|].
  eapply valid_cons; [apply (valid_move_construct _ 30 20 [1; 4]); [solve_fresh|reflexivity]|].
  eapply valid_cons; [apply (valid_pop_front _ 30 [4] 1); reflexivity|].
  eapply valid_cons; [apply (valid_move_assign _ 10 30 [2] [4]); [lia|reflexivity..]|].
  eapply valid_cons; [apply (valid_push_back _ 30 [] 2); [reflexivity|solve_free]|].
  eapply valid_cons; [apply (valid_clear _ 10 [4]); reflexivity|].
  eapply valid_cons; [apply (valid_pop_back _ 30 [] 2); reflexivity|].
  eapply valid_cons; [apply (valid_move_assign_self _ 20 []); reflexivity|].
  eapply valid_cons; [apply (valid_push_back _ 20 [] 1); [reflexivity|solve_free]|].
  eapply valid_cons; [apply (valid_push_back _ 20 [1] 3); [reflexivity|solve_free]|].
  eapply valid_cons; [apply (valid_splice_after _ 20 [] [1] [3] []); reflexivity|].
  apply valid_nil.
Defined.

(** ** Instances of the further properties *)

Ltac solve_disjoint :=
  let x := fresh "x" in
  let Hx := fresh "Hx" in
  let Hy := fresh "Hy" in
  intros x Hx Hy; revert Hx;
  repeat (apply elem_of_cons in Hy as [->|Hy]; [by_eval|]);
  by apply elem_of_nil in Hy.

Lemma link_links_witness :
  ∃ h', link 1 2 3 heap_unlinked = Some (tt, h')
    ∧ adj h' 2 1 ∧ adj h' 1 3
    ∧ (∀ x, x ≠ 1 → x ≠ 2 → x ≠ 3 → h' !! x = heap_unlinked !! x).
Proof. apply link_links; first [by_eval | lia]. Defined.

Lemma unlink_unlinks_witness :
  ∃ h', unlink 1 heap_two = Some (tt, h')
    ∧ adj h' 10 2
    ∧ h' !! 1 = Some (Node 1 1)
    ∧ (∀ x, x ≠ 1 → x ≠ 10 → x ≠ 2 → h' !! x = heap_two !! x).
Proof. apply unlink_unlinks; first [by_eval | lia]. Defined.

Lemma unlink_undoes_link_witness :
  (link 3 10 1 ;; unlink 3) heap_two = Some (tt, heap_two).
Proof. apply unlink_undoes_link; first [by_eval | reflexivity | lia]. Defined.

Lemma push_back_appends_witness :
  ∃ h', push_back 10 3 heap_two = Some (tt, h')
    ∧ ring h' 10 [1; 2; 3]
    ∧ back 10 h' = Some (3, h')
    ∧ (∀ y, y ≠ 3 → y ≠ 10 → y ≠ 2 → h' !! y = heap_two !! y).
Proof.
  destruct (push_back_appends heap_two 10 [1; 2] 3)
    as (h' & H1 & H2 & _ & H3 & _ & H4); [by_eval..|].
  by exists h'.
Defined.

Lemma push_front_prepends_witness :
  ∃ h', push_front 10 3 heap_two = Some (tt, h')
    ∧ ring h' 10 [3; 1; 2]
    ∧ front 10 h' = Some (3, h')
    ∧ (∀ y, y ≠ 3 → y ≠ 10 → y ≠ 1 → h' !! y = heap_two !! y).
Proof.
  destruct (push_front_prepends heap_two 10 [1; 2] 3)
    as (h' & H1 & H2 & _ & H3 & _ & H4); [by_eval..|].
  by exists h'.
Defined.

Lemma pop_back_removes_last_witness :
  ∃ h', back 10 heap_two = Some (2, heap_two)
    ∧ pop_back 10 heap_two = Some (tt, h')
    ∧ ring h' 10 [1]
    ∧ h' !! 2 = Some (Node 2 2)
    ∧ back 10 h' = Some (1, h').
Proof.
  destruct (pop_back_removes_last heap_two 10 [1] 2)
    as (h' & H1 & H2 & H3 & _ & H4 & H5 & _); [by_eval|].
  by exists h'.
Defined.

Lemma pop_front_removes_first_witness :
  ∃ h', front 10 heap_two = Some (1, heap_two)
    ∧ pop_front 10 heap_two = Some (tt, h')
    ∧ ring h' 10 [2]
    ∧ h' !! 1 = Some (Node 1 1)
    ∧ front 10 h' = Some (2, h').
Proof.
  destruct (pop_front_removes_first heap_two 10 [2] 1)
    as (h' & H1 & H2 & H3 & _ & H4 & H5 & _); [by_eval|].
  by exists h'.
Defined.

Lemma observers_witness :
  empty 10 heap_two = Some (false, heap_two)
  ∧ front 10 heap_two = Some (1, heap_two)
  ∧ back 10 heap_two = Some (2, heap_two)
  ∧ empty 7 heap_empty_list = Some (true, heap_empty_list)
  ∧ front 7 heap_empty_list = Some (7, heap_empty_list)
  ∧ back 7 heap_empty_list = Some (7, heap_empty_list).
Proof.
  destruct (observers heap_two 10 [1; 2]) as (H1 & _ & _ & _ & H2 & H3);
    [by_eval|].
  destruct (observers heap_empty_list 7 []) as (H4 & _ & _ & _ & H5 & H6);
    [by_eval|].
  by split_and!.
Defined.

Lemma push_pop_round_trip_witness :
  (push_back 10 3 ;; pop_back 10) heap_two = Some (tt, heap_two)
  ∧ (push_front 10 3 ;; pop_front 10) heap_two = Some (tt, heap_two).
Proof. apply (push_pop_round_trip heap_two 10 [1; 2] 3); first [by_eval | reflexivity]. Defined.

Lemma insert_erase_round_trip_witness :
  (it ← insert 10 2 3; erase 10 it) heap_two = Some (2, heap_two).
Proof.
  apply (insert_erase_round_trip heap_two 10 [1; 2] 2 3);
    first [by_eval | reflexivity].
Defined.

Lemma ends_via_iterators_witness :
  (b ← begin_ 10; insert 10 b 3) heap_two = (push_front 10 3 ;; mret 3) heap_two
  ∧ (b ← begin_ 10; erase 10 b) heap_two = (pop_front 10 ;; begin_ 10) heap_two
  ∧ (e ← end_ 10; l ← Iter.decr e; erase 10 l) heap_two
    = (pop_back 10 ;; end_ 10) heap_two.
Proof.
  destruct ends_via_iterators as (_ & H2 & H3 & H4).
  split_and!.
  - apply (H2 heap_two 10 [1; 2] 3). by_eval.
  - apply (H3 heap_two 10 [2] 1). by_eval.
  - apply (H4 heap_two 10 [1] 2). by_eval.
Defined.

Lemma erase_end_detaches_sentinel_witness :
  erase 7 7 heap_empty_list = Some (7, heap_empty_list)
  ∧ ∃ h', erase 10 10 heap_two = Some (1, h')
      ∧ ring h' 10 []
      ∧ ring h' 1 [2].
Proof.
  destruct erase_end_detaches_sentinel as (H1 & H2).
  split; [apply H1; by_eval|].
  destruct (H2 heap_two 10 1 [2]) as (h' & Ha & Hb & _ & Hc & _); [by_eval|].
  by exists h'.
Defined.

Lemma clear_leaves_elements_witness :
  ∃ h', clear 10 heap_two = Some (tt, h')
    ∧ ring h' 10 []
    ∧ get_prev 1 h' = Some (10, h')
    ∧ get_next 2 h' = Some (10, h').
Proof.
  destruct (clear_leaves_elements heap_two 10 1 [2])
    as (h' & H1 & H2 & _ & H3 & H4 & _); [by_eval|].
  by exists h'.
Defined.

Lemma unlink_after_clear_corrupts_witness :
  ∃ h', (clear 10 ;; unlink 1) heap_two = Some (tt, h')
    ∧ empty 10 h' = Some (true, h')
    ∧ begin_ 10 h' = Some (2, h')
    ∧ (∀ L', ¬ ring h' 10 L').
Proof.
  destruct (unlink_after_clear_corrupts heap_two 10 1 2 [])
    as (h' & H1 & H2 & H3 & _ & H4); [by_eval|].
  by exists h'.
Defined.

Lemma move_assign_replaces_witness :
  ∃ h', move_assign 10 20 heap_AB = Some (tt, h')
    ∧ ring h' 10 [5; 6]
    ∧ ring h' 20 []
    ∧ (∀ x, x ∈ [1; 2; 3; 4] → h' !! x = heap_AB !! x).
Proof.
  destruct (move_assign_replaces heap_AB 10 20 [1; 2; 3; 4] [5; 6])
    as (h' & H1 & H2 & _ & H3 & H4); [by_eval|by_eval|solve_disjoint|].
  by exists h'.
Defined.

Lemma splice_rewires_three_links_witness :
  ∃ h', splice 20 6 10 2 4 heap_AB = Some (tt, h')
    ∧ adj h' 1 4 ∧ adj h' 5 2 ∧ adj h' 3 6
    ∧ (∀ x, x ∉ [1; 5; 3; 2; 4; 6] → h' !! x = heap_AB !! x).
Proof.
  destruct (splice_rewires_three_links heap_AB 20 6 10 2 4 1 3 5)
    as (h' & H1 & H2 & H3 & H4 & _ & H5); [by_eval|by_eval|by_eval|lia..|].
  by exists h'.
Defined.

Lemma retreat_undoes_advance_witness :
  (m ← advance 5 1; retreat 5 m) heap_two = Some (1, heap_two)
  ∧ (m ← retreat 5 1; advance 5 m) heap_two = Some (1, heap_two).
Proof.
  destruct (retreat_undoes_advance heap_two 10 [1; 2] 1 5) as (H1 & H2 & _);
    [by_eval..|].
  by split.
Defined.

Lemma post_step_returns_old_witness :
  post_incr 2 heap_two = Some ((2, 10), heap_two)
  ∧ post_decr 10 heap_two = Some ((10, 2), heap_two).
Proof.
  destruct (post_step_returns_old heap_two 10 [1; 2] 2) as ((a & Ha & _) & _);
    [by_eval..|].
  destruct (post_step_returns_old heap_two 10 [1; 2] 10) as (_ & (b & Hb & _));
    [by_eval..|].
  split.
  - rewrite Ha. vm_compute in Ha. congruence.
  - rewrite Hb. vm_compute in Hb. congruence.
Defined.

Lemma reverse_iteration_witness :
  to_list_rev 3 10 heap_two = Some (Some [2; 1], heap_two).
Proof. apply (reverse_iteration heap_two 10 [1; 2] 3); [by_eval|simpl; lia]. Defined.

Lemma push_back_again_loops_witness :
  ∃ h', push_back 10 2 heap_two = Some (tt, h')
    ∧ get_next 2 h' = Some (2, h')
    ∧ (∀ fuel, to_list fuel 10 h' = Some (None, h')).
Proof. apply (push_back_again_loops heap_two 10 [1] 2). by_eval. Defined.

Lemma move_there_and_back_witness :
  ∃ h', (move_assign 10 20 ;; move_assign 20 10) heap_AB = Some (tt, h')
    ∧ ring h' 20 [5; 6]
    ∧ ring h' 10 [].
Proof.
  destruct (move_there_and_back heap_AB 10 20 [1; 2; 3; 4] [5; 6])
    as (h' & H1 & H2 & H3 & _); [by_eval|by_eval|solve_disjoint|].
  by exists h'.
Defined.

Lemma splice_there_and_back_witness :
  ∃ h1 h2,
    splice 20 6 10 2 4 heap_AB = Some (tt, h1)
    ∧ ring h1 10 [1; 4] ∧ ring h1 20 [5; 2; 3; 6]
    ∧ splice 10 4 20 2 6 h1 = Some (tt, h2)
    ∧ ring h2 10 [1; 2; 3; 4] ∧ ring h2 20 [5; 6].
Proof.
  destruct (splice_there_and_back heap_AB 20 10 [1] [2; 3] [4] [5] [6])
    as (f & h1 & h2 & -> & H); [by_eval|by_eval|solve_disjoint|done|].
  by exists h1, h2.
Defined.
